(** * NetDiagram: the discovery engine, its parser and its reconciler

  A shallow embedding of [data_parser.py], [device_connector.py] and
  [network_discovery.py].

  - Python [str] is [string] (a sequence of characters with code points
    below 256), a
    [Dict[str, str]] is a [gmap string string], a [set] is a [gset], a
    [list] is a [list], an [int] is a [Z].
  - The libraries the program calls but does not define ([re],
    [ipaddress], [netmiko], [datetime]) are interfaces, given as type
    classes: every theorem about the program holds for every
    implementation of them.  One implementation of each is given as well,
    so that the program can be run on concrete inputs. *)

From Stdlib Require Import ZArith Ascii String.
From stdpp Require Import base option list gmap sets strings pretty.

Local Open Scope string_scope.
Local Open Scope list_scope.
Local Open Scope nat_scope.

(** ** Python values used by the program *)

(** A [Dict[str, str]]: a neighbor record, a version record, the connection
  parameters of a device. [d.get(k)] is [d !! k]. *)
Abbreviation record := (gmap string string).

Module Py.

(** [str.isspace] on one character, read as a code point below 256: the
  control characters 9 to 13 and 28 to 31, the space, and the code points
  133 and 160. *)
Definition is_space (c : ascii) : bool :=
  let n := nat_of_ascii c in
  (Nat.leb 9 n && Nat.leb n 13) || (Nat.leb 28 n && Nat.leb n 32)
  || Nat.eqb n 133 || Nat.eqb n 160.

Fixpoint lstrip (s : string) : string :=
  match s with
  | String c s' => if is_space c then lstrip s' else s
  | EmptyString => EmptyString
  end.

Definition rstrip (s : string) : string :=
  String.rev (lstrip (String.rev s)).

(** [s.strip()] *)
Definition strip (s : string) : string := rstrip (lstrip s).

(** Truth value of a [str]: the empty string is false. *)
Definition truthy (s : string) : bool :=
  match s with EmptyString => false | String _ _ => true end.

(** Truth value of [d.get(k)]: [None] and [''] are false. *)
Definition truthy_opt (o : option string) : bool :=
  match o with Some s => truthy s | None => false end.

End Py.

(** ** The [re] module, as an interface

  The patterns are the ones of the source, character for character.
  [re_search p s] is [re.search(p, s)] followed, on a match, by
  [.group(1)]: every pattern the program searches for has exactly one
  capturing group, and it takes part in every match. *)
Class PyRe := {
  re_split : string → string → list string;
  re_search : string → string → option string;
}.

(** ** data_parser.py *)

(** What the neighbor parsers receive: the text of a command, or the list
  of records a TextFSM template made of it. *)
Inductive parser_input :=
| RawText (output : string)
| Structured (output : list record).

(** What [parse_version] receives: text, one record, or a list of records. *)
Inductive version_input :=
| VersionText (output : string)
| VersionDict (output : record)
| VersionList (output : list record).

(** What [parse_version] returns: a record, or the empty list it was
  given. *)
Inductive version_output :=
| OutDict (d : record)
| OutEmptyList.

Definition is_mapping (v : version_output) : bool :=
  match v with OutDict _ => true | OutEmptyList => false end.

Section DataParser.
Context `{PyRe}.

(** [if m: neighbor[key] = m.group(1).strip()] *)
Definition set_if_match (key : string) (m : option string)
    (neighbor : record) : record :=
  match m with
  | Some g => <[key := Py.strip g]> neighbor
  | None => neighbor
  end.

(** The body of the loop of [parse_cdp_neighbors] up to the final test:
    the record built from one block. *)
Definition cdp_block_neighbor (block : string) : record :=
  let neighbor : record := ∅ in
  let device_id_match := re_search "Device ID:[\s]*(.+?)[\r\n]" block in
  let neighbor := set_if_match "device_id" device_id_match neighbor in
  let ip_match := re_search "IP(?:v4)? address:[\s]*(.+?)[\r\n]" block in
  let neighbor := set_if_match "ip" ip_match neighbor in
  let platform_match := re_search "Platform:[\s]*(.+?)," block in
  let neighbor := set_if_match "platform" platform_match neighbor in
  let local_int_match := re_search "Interface:[\s]*(.+?)," block in
  let remote_int_match :=
    re_search "Port ID \(outgoing port\):[\s]*(.+?)[\r\n]" block in
  let neighbor := set_if_match "local_interface" local_int_match neighbor in
  let neighbor :=
    set_if_match "remote_interface" remote_int_match neighbor in
  neighbor.

(** [if neighbor.get('device_id') and neighbor.get('ip')] *)
Definition essential (neighbor : record) : bool :=
  Py.truthy_opt (neighbor !! "device_id") && Py.truthy_opt (neighbor !! "ip").

(** [for block in device_blocks: ...], [neighbors] being the list the
    loop appends to. *)
Fixpoint cdp_blocks (device_blocks : list string) (neighbors : list record)
    : list record :=
  match device_blocks with
  | [] => neighbors
  | block :: device_blocks =>
      if negb (Py.truthy (Py.strip block)) then
        cdp_blocks device_blocks neighbors
      else
        let neighbor := cdp_block_neighbor block in
        if essential neighbor then
          cdp_blocks device_blocks (neighbors ++ [neighbor])
        else cdp_blocks device_blocks neighbors
  end.

Definition parse_cdp_neighbors (output : parser_input) : list record :=
  match output with
  | Structured output => output
  | RawText output =>
      let device_blocks := re_split "-{3,}" output in
      cdp_blocks device_blocks []
  end.

Definition lldp_block_neighbor (block : string) : record :=
  let neighbor : record := ∅ in
  let device_id_match := re_search "System Name:[\s]*(.+?)[\r\n]" block in
  let neighbor := set_if_match "device_id" device_id_match neighbor in
  let ip_match := re_search "Management Address:[\s]*(.+?)[\r\n]" block in
  let neighbor := set_if_match "ip" ip_match neighbor in
  let local_int_match :=
    re_search "Local Interface:[\s]*(.+?)[\r\n]" block in
  let remote_int_match := re_search "Port ID:[\s]*(.+?)[\r\n]" block in
  let neighbor := set_if_match "local_interface" local_int_match neighbor in
  let neighbor :=
    set_if_match "remote_interface" remote_int_match neighbor in
  neighbor.

Fixpoint lldp_blocks (device_blocks : list string) (neighbors : list record)
    : list record :=
  match device_blocks with
  | [] => neighbors
  | block :: device_blocks =>
      if negb (Py.truthy (Py.strip block)) then
        lldp_blocks device_blocks neighbors
      else
        let neighbor := lldp_block_neighbor block in
        if essential neighbor then
          lldp_blocks device_blocks (neighbors ++ [neighbor])
        else lldp_blocks device_blocks neighbors
  end.

Definition parse_lldp_neighbors (output : parser_input) : list record :=
  match output with
  | Structured output => output
  | RawText output =>
      let device_blocks :=
        re_split "[\r\n][\r\n]Device ID:.+?[\r\n]" output in
      lldp_blocks device_blocks []
  end.

(** [parse_interfaces]: structured input is re-keyed by interface name,
    text gives the empty mapping. *)
Definition parse_interfaces (output : parser_input) : gmap string record :=
  match output with
  | Structured output =>
      foldl (λ interface_dict intf,
               <[default "unknown" (intf !! "interface") := intf]>
                 interface_dict) ∅ output
  | RawText _ => ∅
  end.

Definition parse_version (output : version_input) : version_output :=
  match output with
  | VersionDict output => OutDict output
  | VersionList output =>
      match output with
      | first :: _ => OutDict first
      | [] => OutEmptyList
      end
  | VersionText output =>
      let version_info : record := ∅ in
      let model_match :=
        re_search "(?:cisco|Cisco)\s+(\S+)(?:\s+\S+){0,3}\s+processor" output in
      let version_info :=
        match model_match with
        | Some g => <["hardware" := g]> version_info
        | None => version_info
        end in
      let version_match :=
        re_search "Cisco IOS Software.*Version\s+([^,\s]+)" output in
      let version_info :=
        match version_match with
        | Some g => <["version" := g]> version_info
        | None => version_info
        end in
      let hostname_match := re_search "(\S+)\s+uptime\s+is" output in
      let version_info :=
        match hostname_match with
        | Some g => <["hostname" := g]> version_info
        | None => version_info
        end in
      OutDict version_info
  end.

End DataParser.

(** The two neighbor parsers side by side, to state what they share. *)
Inductive protocol := CDP | LLDP.

Definition parse_neighbors `{PyRe} (p : protocol)
    : parser_input → list record :=
  match p with
  | CDP => parse_cdp_neighbors
  | LLDP => parse_lldp_neighbors
  end.

Definition split_pattern (p : protocol) : string :=
  match p with
  | CDP => "-{3,}"
  | LLDP => "[\r\n][\r\n]Device ID:.+?[\r\n]"
  end.

Definition block_loop `{PyRe} (p : protocol)
    : list string → list record → list record :=
  match p with
  | CDP => cdp_blocks
  | LLDP => lldp_blocks
  end.

Definition block_neighbor `{PyRe} (p : protocol) : string → record :=
  match p with
  | CDP => cdp_block_neighbor
  | LLDP => lldp_block_neighbor
  end.

(** The patterns of the two fields a record must have. *)
Definition id_pattern (p : protocol) : string :=
  match p with
  | CDP => "Device ID:[\s]*(.+?)[\r\n]"
  | LLDP => "System Name:[\s]*(.+?)[\r\n]"
  end.

Definition address_pattern (p : protocol) : string :=
  match p with
  | CDP => "IP(?:v4)? address:[\s]*(.+?)[\r\n]"
  | LLDP => "Management Address:[\s]*(.+?)[\r\n]"
  end.

(** The keys a parser sets, each with the pattern it is extracted by. *)
Definition fields (p : protocol) : list (string * string) :=
  ("device_id", id_pattern p) :: ("ip", address_pattern p) ::
  match p with
  | CDP =>
      [ ("platform", "Platform:[\s]*(.+?),");
        ("local_interface", "Interface:[\s]*(.+?),");
        ("remote_interface", "Port ID \(outgoing port\):[\s]*(.+?)[\r\n]") ]
  | LLDP =>
      [ ("local_interface", "Local Interface:[\s]*(.+?)[\r\n]");
        ("remote_interface", "Port ID:[\s]*(.+?)[\r\n]") ]
  end.

(** ** An implementation of [re]: a backtracking matcher

  It covers the constructs the patterns of the program use, with the
  priorities of Python's matcher: the leftmost match, the first
  alternative first, a greedy repetition as long as possible and a lazy
  one as short as possible. *)
Module Backtrack.

Inductive regex :=
| Eps
| Chr (c : ascii)
| Cls (p : ascii → bool)
| Seq (r1 r2 : regex)
| Alt (r1 r2 : regex)
| Star (r : regex)
| LazyStar (r : regex)
| Group (r : regex).

Fixpoint lit (s : string) : regex :=
  match s with
  | EmptyString => Eps
  | String c s' => Seq (Chr c) (lit s')
  end.

Definition Plus (r : regex) : regex := Seq r (Star r).
Definition LazyPlus (r : regex) : regex := Seq r (LazyStar r).
Definition Opt (r : regex) : regex := Alt r Eps.

Definition LF : ascii := ascii_of_nat 10.
Definition CR : ascii := ascii_of_nat 13.

(** [.], [\s], [\S], [[\r\n]], [[^,\s]] *)
Definition dot (c : ascii) : bool := negb (Ascii.eqb c LF).
Definition space (c : ascii) : bool := Py.is_space c.
Definition nonspace (c : ascii) : bool := negb (Py.is_space c).
Definition crlf (c : ascii) : bool := Ascii.eqb c CR || Ascii.eqb c LF.
Definition not_comma_space (c : ascii) : bool :=
  negb (Ascii.eqb c ",") && negb (Py.is_space c).

(** The first [n] characters of [s]. *)
Fixpoint take (n : nat) (s : string) : string :=
  match n, s with
  | S n, String c s' => String c (take n s')
  | _, _ => EmptyString
  end.

Definition or_else {A} (x y : option A) : option A :=
  match x with Some _ => x | None => y end.

(** [go r s g k]: match [r] at the start of [s], group 1 being [g] so
    far, and hand what is left to [k]; [None] makes the matcher
    backtrack. A repetition goes round again only when the round before
    consumed a character. *)
Fixpoint go {A} (r : regex) (s : string) (g : option string)
    (k : string → option string → option A) : option A :=
  match r with
  | Eps => k s g
  | Chr c =>
      match s with
      | String c' s' => if Ascii.eqb c c' then k s' g else None
      | EmptyString => None
      end
  | Cls p =>
      match s with
      | String c' s' => if p c' then k s' g else None
      | EmptyString => None
      end
  | Seq r1 r2 => go r1 s g (λ s' g', go r2 s' g' k)
  | Alt r1 r2 => or_else (go r1 s g k) (go r2 s g k)
  | Star r1 =>
      (fix loop (n : nat) (s : string) (g : option string) : option A :=
         match n with
         | O => k s g
         | S n =>
             or_else
               (go r1 s g (λ s' g',
                  if Nat.ltb (String.length s') (String.length s)
                  then loop n s' g' else None))
               (k s g)
         end) (S (String.length s)) s g
  | LazyStar r1 =>
      (fix loop (n : nat) (s : string) (g : option string) : option A :=
         match n with
         | O => k s g
         | S n =>
             or_else
               (k s g)
               (go r1 s g (λ s' g',
                  if Nat.ltb (String.length s') (String.length s)
                  then loop n s' g' else None))
         end) (S (String.length s)) s g
  | Group r1 =>
      go r1 s g (λ s' _,
        k s' (Some (take (String.length s - String.length s') s)))
  end.

(** A match of [r] at the start of [s]: what follows it, and group 1. *)
Definition match_here (r : regex) (s : string)
    : option (string * option string) :=
  go r s None (λ s' g, Some (s', g)).

(** [re.search]: the first position with a match. *)
Fixpoint search (r : regex) (s : string) : option (option string) :=
  match match_here r s with
  | Some (_, g) => Some g
  | None =>
      match s with
      | String _ s' => search r s'
      | EmptyString => None
      end
  end.

(** [re.split] for a pattern without groups that matches no empty
    string: [piece] is the current piece, [n] bounds the positions left. *)
Fixpoint split_go (n : nat) (r : regex) (s piece : string) : list string :=
  match n with
  | O => [piece +:+ s]
  | S n =>
      match s with
      | EmptyString => [piece]
      | String c s' =>
          match match_here r s with
          | Some (rest, _) =>
              if Nat.ltb (String.length rest) (String.length s)
              then piece :: split_go n r rest ""
              else split_go n r s' (piece +:+ String c "")
          | None => split_go n r s' (piece +:+ String c "")
          end
      end
  end.

Definition split (r : regex) (s : string) : list string :=
  split_go (S (String.length s)) r s "".

(** [r{3,}] and [r{0,3}] *)
Definition AtLeast3 (r : regex) : regex := Seq r (Seq r (Seq r (Star r))).
Definition UpTo3 (r : regex) : regex :=
  Opt (Seq r (Opt (Seq r (Opt r)))).

(** [Label:[\s]*(.+?)END] *)
Definition labelled (label : regex) (stop : regex) : regex :=
  Seq label (Seq (Star (Cls space))
    (Seq (Group (LazyPlus (Cls dot))) stop)).

(** The patterns of [data_parser.py], by their source text. *)
Definition patterns : list (string * regex) :=
  [ ("-{3,}", AtLeast3 (Chr "-"));
    ("Device ID:[\s]*(.+?)[\r\n]", labelled (lit "Device ID:") (Cls crlf));
    ("IP(?:v4)? address:[\s]*(.+?)[\r\n]",
      labelled (Seq (lit "IP") (Seq (Opt (lit "v4")) (lit " address:")))
               (Cls crlf));
    ("Platform:[\s]*(.+?),", labelled (lit "Platform:") (Chr ","));
    ("Interface:[\s]*(.+?),", labelled (lit "Interface:") (Chr ","));
    ("Port ID \(outgoing port\):[\s]*(.+?)[\r\n]",
      labelled (lit "Port ID (outgoing port):") (Cls crlf));
    ("[\r\n][\r\n]Device ID:.+?[\r\n]",
      Seq (Cls crlf) (Seq (Cls crlf) (Seq (lit "Device ID:")
        (Seq (LazyPlus (Cls dot)) (Cls crlf)))));
    ("System Name:[\s]*(.+?)[\r\n]",
      labelled (lit "System Name:") (Cls crlf));
    ("Management Address:[\s]*(.+?)[\r\n]",
      labelled (lit "Management Address:") (Cls crlf));
    ("Local Interface:[\s]*(.+?)[\r\n]",
      labelled (lit "Local Interface:") (Cls crlf));
    ("Port ID:[\s]*(.+?)[\r\n]", labelled (lit "Port ID:") (Cls crlf));
    ("(?:cisco|Cisco)\s+(\S+)(?:\s+\S+){0,3}\s+processor",
      Seq (Alt (lit "cisco") (lit "Cisco"))
        (Seq (Plus (Cls space))
          (Seq (Group (Plus (Cls nonspace)))
            (Seq (UpTo3 (Seq (Plus (Cls space)) (Plus (Cls nonspace))))
              (Seq (Plus (Cls space)) (lit "processor"))))));
    ("Cisco IOS Software.*Version\s+([^,\s]+)",
      Seq (lit "Cisco IOS Software")
        (Seq (Star (Cls dot))
          (Seq (lit "Version")
            (Seq (Plus (Cls space)) (Group (Plus (Cls not_comma_space)))))));
    ("(\S+)\s+uptime\s+is",
      Seq (Group (Plus (Cls nonspace)))
        (Seq (Plus (Cls space))
          (Seq (lit "uptime") (Seq (Plus (Cls space)) (lit "is"))))) ].

Fixpoint compile_in (table : list (string * regex)) (pattern : string)
    : option regex :=
  match table with
  | [] => None
  | (p, r) :: table =>
      if String.eqb p pattern then Some r else compile_in table pattern
  end.

Definition compile : string → option regex := compile_in patterns.

(** A pattern outside the table matches nowhere. *)
Definition re : PyRe :=
  {| re_split pattern s :=
       match compile pattern with
       | Some r => split r s
       | None => [s]
       end;
     re_search pattern s :=
       match compile pattern with
       | Some r =>
           match search r s with
           | Some (Some g) => Some g
           | _ => None
           end
       | None => None
       end |}.

End Backtrack.

(** ** The collaborators of the traversal, as interfaces *)

(** [ipaddress]: [None] stands for [ValueError]; [net_contains n a] is
  [a in n]. *)
Class PyIpaddress := {
  ip_addr : Type;
  ip_net : Type;
  ip_address : string → option ip_addr;
  ip_network : string → option ip_net;
  net_contains : ip_net → ip_addr → bool;
}.

(** [netmiko] and the clock. Every call may change the [world] (the devices,
  the network, the time) and depends on it. A call that raises returns
  [inr] with the text of the exception. Without TextFSM [send_command]
  returns text; with it, text or a list of records. *)
Class Netmiko := {
  world : Type;
  connection : Type;
  ConnectHandler : record → world → (connection + string) * world;
  send_command : connection → string → world → (string + string) * world;
  send_command_textfsm :
    connection → string → world → (parser_input + string) * world;
  connection_disconnect : connection → world → (unit + string) * world;
  now_isoformat : world → string * world;
}.

(** Computations that use the world. *)
Definition M `{Netmiko} (A : Type) : Type := world → A * world.

Definition ret `{Netmiko} {A} (a : A) : M A := λ w, (a, w).

Definition bind `{Netmiko} {A B} (c : M A) (k : A → M B) : M B :=
  λ w, let '(a, w') := c w in k a w'.

Notation "x <~ c ;; k" := (bind c (λ x, k))
  (at level 100, c at next level, right associativity).

(** ** device_connector.py *)

Section DeviceConnector.
Context `{Netmiko}.

(** [connect]: every exception gives [None]. *)
Definition connect (device_params : record) : M (option connection) :=
  r <~ ConnectHandler device_params ;;
  match r with
  | inl connection => ret (Some connection)
  | inr _ => ret None
  end.

(** The [try] part of the loop of [execute_commands]: the command is sent,
    with TextFSM when [parse_output] is set. *)
Definition send (connection0 : connection) (command : string)
    (parse_output : bool) : M (parser_input + string) :=
  if parse_output then send_command_textfsm connection0 command
  else
    r <~ send_command connection0 command ;;
    ret (match r with
         | inl output => inl (RawText output)
         | inr e => inr e
         end).

(** [for command in commands: ...] on the dictionary [results]. *)
Fixpoint execute_commands_loop (connection0 : connection)
    (commands : list string) (parse_output : bool)
    (results : gmap string parser_input) : M (gmap string parser_input) :=
  match commands with
  | [] => ret results
  | command :: commands =>
      r <~ send connection0 command parse_output ;;
      match r with
      | inl output =>
          execute_commands_loop connection0 commands parse_output
            (<[command := output]> results)
      | inr e =>
          execute_commands_loop connection0 commands parse_output
            (<[command := RawText ("ERROR: " +:+ e)]> results)
      end
  end.

Definition execute_commands (connection0 : connection)
    (commands : list string) (parse_output : bool)
    : M (gmap string parser_input) :=
  execute_commands_loop connection0 commands parse_output ∅.

(** [disconnect]: an exception is logged and dropped. *)
Definition disconnect (connection0 : connection) : M unit :=
  _ <~ connection_disconnect connection0 ;; ret tt.

End DeviceConnector.

(** ** network_discovery.py *)

(** A value of the dictionary of one device. *)
Inductive value :=
| VStr (s : string)
| VNeighbors (l : list record)
| VInterfaces (m : gmap string record)
| VResults (m : gmap string parser_input).

Abbreviation device_data := (gmap string value).

(** [n.get('ip')] *)
Definition get_ip (n : record) : option string := n !! "ip".

(** The reconciliation of the two neighbor lists in
  [discover_single_device]: [for lldp_neighbor in lldp_neighbors: ...]
  on [all_neighbors] and [neighbor_ips]. *)
Fixpoint merge_lldp (lldp_neighbors : list record)
    (all_neighbors : list record) (neighbor_ips : gset (option string))
    : list record :=
  match lldp_neighbors with
  | [] => all_neighbors
  | lldp_neighbor :: lldp_neighbors =>
      if decide (get_ip lldp_neighbor ∉ neighbor_ips) then
        merge_lldp lldp_neighbors (all_neighbors ++ [lldp_neighbor])
          ({[get_ip lldp_neighbor]} ∪ neighbor_ips)
      else merge_lldp lldp_neighbors all_neighbors neighbor_ips
  end.

(** The records of a list that carry the address [a]. *)
Definition with_ip (a : string) (l : list record) : list record :=
  filter (λ n, get_ip n = Some a) l.

Definition merge_neighbors (cdp_neighbors lldp_neighbors : list record)
    : list record :=
  let all_neighbors := cdp_neighbors in
  let neighbor_ips : gset (option string) :=
    list_to_set
      (get_ip <$> filter (λ n, Is_true (Py.truthy_opt (get_ip n)))
                    all_neighbors) in
  merge_lldp lldp_neighbors all_neighbors neighbor_ips.

Definition discovery_commands : list string :=
  [ "show version";
    "show cdp neighbors detail";
    "show lldp neighbors detail";
    "show interfaces";
    "show ip interface brief";
    "show vlan brief";
    "show spanning-tree bridge";
    "show ip route" ].

(** [parse_version] is given what [execute_commands] returned. *)
Definition as_version_input (output : parser_input) : version_input :=
  match output with
  | RawText s => VersionText s
  | Structured l => VersionList l
  end.

(** [device_data.update(version_data)] *)
Definition update_with (version_data : version_output) (d : device_data)
    : device_data :=
  match version_data with
  | OutDict v => (VStr <$> v) ∪ d
  | OutEmptyList => d
  end.

Section DiscoverSingleDevice.
Context `{PyRe} `{Netmiko}.

(** With text or lists of records as command output nothing in the [try]
    block raises, so its [except] branch is not taken. *)
Definition discover_single_device (device_params : record)
    : M device_data :=
  let device_ip := default "unknown" (device_params !! "ip") in
  discovered_at <~ now_isoformat ;;
  let device_data : device_data :=
    <["discovered_at" := VStr discovered_at]> {["ip" := VStr device_ip]} in
  connection0 <~ connect device_params ;;
  match connection0 with
  | None => ret device_data
  | Some connection0 =>
      results <~ execute_commands connection0 discovery_commands false ;;
      let get command := default (RawText "") (results !! command) in
      let version_data :=
        parse_version (as_version_input (get "show version")) in
      let device_data := update_with version_data device_data in
      let cdp_neighbors :=
        parse_cdp_neighbors (get "show cdp neighbors detail") in
      let lldp_neighbors :=
        parse_lldp_neighbors (get "show lldp neighbors detail") in
      let all_neighbors := merge_neighbors cdp_neighbors lldp_neighbors in
      let device_data :=
        <["neighbors" := VNeighbors all_neighbors]> device_data in
      let interfaces := parse_interfaces (get "show interfaces") in
      let device_data :=
        <["interfaces" := VInterfaces interfaces]> device_data in
      let device_data := <["raw_output" := VResults results]> device_data in
      _ <~ disconnect connection0 ;;
      ret device_data
  end.

End DiscoverSingleDevice.

(** The state of the loop of [discover_network]. [visited] is not a
  variable of the program: it lists, latest first, the parameters
  [discover_single_device] was called with. *)
Record frontier := Frontier {
  discovered_devices : gmap string device_data;
  discovery_queue : list record;
  attempted_ips : gset (option string);
  visited : list record;
}.

Section DiscoverNetwork.
Context `{PyIpaddress} `{PyRe} `{Netmiko}.

(** [ignored_networks]: the subnets that parse, in their order. *)
Fixpoint prepare_networks (ignore_subnets : list string) : list ip_net :=
  match ignore_subnets with
  | [] => []
  | subnet :: ignore_subnets =>
      match ip_network subnet with
      | Some network => network :: prepare_networks ignore_subnets
      | None => prepare_networks ignore_subnets
      end
  end.

Definition ignored_networks_of (ignore_subnets : option (list string))
    : list ip_net :=
  match ignore_subnets with
  | Some ignore_subnets => prepare_networks ignore_subnets
  | None => []
  end.

(** [any(ip_addr in network for network in ignored_networks)] *)
Definition in_ignored (ignored_networks : list ip_net) (a : ip_addr)
    : bool :=
  existsb (λ network, net_contains network a) ignored_networks.

(** [for neighbor in device_data['neighbors']: ...] on the queue. The
    addresses of the queue are read again for every neighbor. *)
Fixpoint enqueue_neighbors (ignored_networks : list ip_net)
    (device_params : record) (attempted : gset (option string))
    (neighbors : list record) (queue : list record) : list record :=
  match neighbors with
  | [] => queue
  | neighbor :: neighbors =>
      let continue :=
        enqueue_neighbors ignored_networks device_params attempted
          neighbors in
      match get_ip neighbor with
      | Some neighbor_ip =>
          if Py.truthy neighbor_ip
             && bool_decide (Some neighbor_ip ∉ attempted)
             && bool_decide (Some neighbor_ip ∉ (get_ip <$> queue))
          then
            match ip_address neighbor_ip with
            | Some a =>
                if in_ignored ignored_networks a then continue queue
                else
                  let neighbor_params :=
                    <["ip" := neighbor_ip]> device_params in
                  continue (queue ++ [neighbor_params])
            | None => continue queue
            end
          else continue queue
      | None => continue queue
      end
  end.

(** The test of the [while]. *)
Definition loop_test (max_devices : Z) (st : frontier) : bool :=
  match discovery_queue st with
  | [] => false
  | _ :: _ => bool_decide (Z.of_nat (size (discovered_devices st)) < max_devices)%Z
  end.

(** One turn of the [while], entered with a queue that is not empty. An
    address that is [None] is not an address: [ip_address] raises
    [ValueError] on it. *)
Definition loop_body (ignored_networks : list ip_net) (st : frontier)
    : M frontier :=
  match discovery_queue st with
  | [] => ret st
  | device_params :: queue =>
      let device_ip := get_ip device_params in
      let st := Frontier (discovered_devices st) queue (attempted_ips st)
                  (visited st) in
      let skip :=
        Frontier (discovered_devices st) queue
          ({[device_ip]} ∪ attempted_ips st) (visited st) in
      if decide (device_ip ∈ attempted_ips st) then ret st
      else
        match device_ip with
        | None => ret skip
        | Some ip =>
            match ip_address ip with
            | None => ret skip
            | Some a =>
                if in_ignored ignored_networks a then ret skip
                else
                  data <~ discover_single_device device_params ;;
                  let discovered := <[ip := data]> (discovered_devices st) in
                  let attempted := {[device_ip]} ∪ attempted_ips st in
                  let queue :=
                    match data !! "neighbors" with
                    | Some (VNeighbors neighbors) =>
                        enqueue_neighbors ignored_networks device_params
                          attempted neighbors queue
                    | _ => queue
                    end in
                  ret (Frontier discovered queue attempted
                         (device_params :: visited st))
            end
        end
  end.

(** The [while], for at most [fuel] turns: [None] when they do not
    suffice. Some number of turns always suffices ([discover_loop_ends]). *)
Fixpoint discover_loop (fuel : nat) (max_devices : Z)
    (ignored_networks : list ip_net) (st : frontier) (w : world)
    : option (frontier * world) :=
  if loop_test max_devices st then
    match fuel with
    | O => None
    | S fuel =>
        let '(st', w') := loop_body ignored_networks st w in
        discover_loop fuel max_devices ignored_networks st' w'
    end
  else Some (st, w).

Definition initial (seed_devices : list record) : frontier :=
  Frontier ∅ seed_devices ∅ [].

Definition discover_network (fuel : nat) (seed_devices : list record)
    (max_devices : Z) (ignore_subnets : option (list string)) (w : world)
    : option (gmap string device_data * world) :=
  let ignored_networks := ignored_networks_of ignore_subnets in
  match discover_loop fuel max_devices ignored_networks
          (initial seed_devices) w with
  | Some (st, w') => Some (discovered_devices st, w')
  | None => None
  end.

(** The states of a run: the one before the first test of the [while],
    and the one after each turn. *)
Inductive run_state (seed_devices : list record) (max_devices : Z)
    (ignore_subnets : option (list string)) (w0 : world)
    : frontier → world → Prop :=
| run_start : run_state seed_devices max_devices ignore_subnets w0
                (initial seed_devices) w0
| run_turn st w st' w' :
    run_state seed_devices max_devices ignore_subnets w0 st w →
    loop_test max_devices st = true →
    loop_body (ignored_networks_of ignore_subnets) st w = (st', w') →
    run_state seed_devices max_devices ignore_subnets w0 st' w'.

(** The queue after the neighbors of a discovered device were looked at. *)
Definition queue_after (ignored_networks : list ip_net)
    (device_params : record) (attempted : gset (option string))
    (data : device_data) (queue : list record) : list record :=
  match data !! "neighbors" with
  | Some (VNeighbors neighbors) =>
      enqueue_neighbors ignored_networks device_params attempted neighbors
        queue
  | _ => queue
  end.

(** The ways a turn of the loop can go: the address was attempted before;
    it is no address or an ignored one; the device is visited. *)
Inductive turn (ignored_networks : list ip_net)
    : frontier → world → frontier → world → Prop :=
| turn_duplicate device_params queue discovered attempted seen w :
    get_ip device_params ∈ attempted →
    turn ignored_networks
      (Frontier discovered (device_params :: queue) attempted seen) w
      (Frontier discovered queue attempted seen) w
| turn_skip device_params queue discovered attempted seen w :
    get_ip device_params ∉ attempted →
    match get_ip device_params ≫= ip_address with
    | Some a => in_ignored ignored_networks a = true
    | None => True
    end →
    turn ignored_networks
      (Frontier discovered (device_params :: queue) attempted seen) w
      (Frontier discovered queue ({[get_ip device_params]} ∪ attempted) seen) w
| turn_visit device_params queue discovered attempted seen w ip a data w' :
    get_ip device_params = Some ip →
    Some ip ∉ attempted →
    ip_address ip = Some a →
    in_ignored ignored_networks a = false →
    discover_single_device device_params w = (data, w') →
    turn ignored_networks
      (Frontier discovered (device_params :: queue) attempted seen) w
      (Frontier (<[ip := data]> discovered)
         (queue_after ignored_networks device_params
            ({[Some ip]} ∪ attempted) data queue)
         ({[Some ip]} ∪ attempted) (device_params :: seen)) w'.

(** Every stored address was attempted. *)
Definition stored_attempted (st : frontier) : Prop :=
  ∀ ip, is_Some (discovered_devices st !! ip) → Some ip ∈ attempted_ips st.

(** No address was visited twice, and every visited address was
    attempted. *)
Definition visited_once (st : frontier) : Prop :=
  NoDup (get_ip <$> visited st)
  ∧ ∀ p, p ∈ visited st → get_ip p ∈ attempted_ips st.

(** Every stored address is an address outside the ignored networks. *)
Definition stored_allowed (ignored_networks : list ip_net) (st : frontier)
    : Prop :=
  ∀ ip, is_Some (discovered_devices st !! ip) →
    ∃ a, ip_address ip = Some a ∧ in_ignored ignored_networks a = false.

(** Every stored record is one [discover_single_device] returned. *)
Definition stored_returned (st : frontier) : Prop :=
  ∀ ip data, discovered_devices st !! ip = Some data →
    ∃ device_params w, data = (discover_single_device device_params w).1.

(** The neighbor records that come from the text of a device: what a
    parser makes of text, what [discover_single_device] puts in the record
    it returns, what a run has stored. *)
Inductive from_text (r : record) : Prop :=
| text_parsed p text :
    r ∈ parse_neighbors p (RawText text) → from_text r
| text_returned device_params w neighbors :
    (discover_single_device device_params w).1 !! "neighbors"
      = Some (VNeighbors neighbors) →
    r ∈ neighbors → from_text r
| text_stored seed_devices max_devices ignore_subnets w0 st w ip data
    neighbors :
    run_state seed_devices max_devices ignore_subnets w0 st w →
    discovered_devices st !! ip = Some data →
    data !! "neighbors" = Some (VNeighbors neighbors) →
    r ∈ neighbors → from_text r.

End DiscoverNetwork.

(** ** An implementation of [ipaddress]: IPv4 in dotted decimal

  Addresses are four decimal octets without leading zeros; a network is
  an address, or an address, a slash and a prefix length, with no host
  bit set. IPv6 and netmask notation are not covered. *)
Module IPv4.

Definition digit (c : ascii) : option Z :=
  let n := nat_of_ascii c in
  if Nat.leb 48 n && Nat.leb n 57 then Some (Z.of_nat (n - 48)) else None.

Fixpoint decimal_go (s : string) (acc : Z) : option Z :=
  match s with
  | EmptyString => Some acc
  | String c s' =>
      match digit c with
      | Some d => decimal_go s' (10 * acc + d)%Z
      | None => None
      end
  end.

Definition decimal (s : string) : option Z :=
  match s with
  | EmptyString => None
  | String _ _ => decimal_go s 0%Z
  end.

Definition octet (s : string) : option Z :=
  match s with
  | String "0" (String _ _) => None
  | _ =>
      if Nat.leb (String.length s) 3 then
        match decimal s with
        | Some n => if (n <=? 255)%Z then Some n else None
        | None => None
        end
      else None
  end.

Fixpoint split_on (sep : ascii) (s piece : string) : list string :=
  match s with
  | EmptyString => [piece]
  | String c s' =>
      if Ascii.eqb c sep then piece :: split_on sep s' ""
      else split_on sep s' (piece +:+ String c "")
  end.

Definition address (s : string) : option Z :=
  match octet <$> split_on "." s "" with
  | [Some a; Some b; Some c; Some d] =>
      Some (((a * 256 + b) * 256 + c) * 256 + d)%Z
  | _ => None
  end.

Definition host_bits (a prefix : Z) : Z := Z.land a (Z.ones (32 - prefix)).

Definition network (s : string) : option (Z * Z) :=
  match split_on "/" s "" with
  | [a] => match address a with Some a => Some (a, 32%Z) | None => None end
  | [a; p] =>
      match address a, decimal p with
      | Some a, Some p =>
          if (p <=? 32)%Z && (host_bits a p =? 0)%Z then Some (a, p)
          else None
      | _, _ => None
      end
  | _ => None
  end.

Definition contains (n : Z * Z) (a : Z) : bool :=
  (Z.shiftr a (32 - n.2) =? Z.shiftr n.1 (32 - n.2))%Z.

Definition ipaddress : PyIpaddress :=
  {| ip_addr := Z; ip_net := Z * Z;
     ip_address := address; ip_network := network;
     net_contains := contains |}.

End IPv4.

(** ** An implementation of the session collaborator: a table of devices

  The world is a clock that every call advances. A device answers the
  commands of its table; a command that is not in it gives empty text; an
  address that is not a device cannot be connected to. *)
Module Sim.

Record device := Device {
  address : string;
  replies : list (string * (string + string));
}.

Fixpoint find_device (devices : list device) (ip : string)
    : option device :=
  match devices with
  | [] => None
  | d :: devices =>
      if String.eqb (address d) ip then Some d else find_device devices ip
  end.

Fixpoint reply (table : list (string * (string + string)))
    (command : string) : string + string :=
  match table with
  | [] => inl ""
  | (c, r) :: table => if String.eqb c command then r else reply table command
  end.

Definition netmiko (devices : list device) : Netmiko :=
  {| world := nat;
     connection := device;
     ConnectHandler params w :=
       match params !! "ip" ≫= find_device devices with
       | Some d => (inl d, S w)
       | None => (inr "timed out", S w)
       end;
     send_command d command w := (reply (replies d) command, S w);
     send_command_textfsm d command w :=
       (match reply (replies d) command with
        | inl output => inl (RawText output)
        | inr e => inr e
        end, S w);
     connection_disconnect d w := (inl tt, S w);
     now_isoformat w := ("t" +:+ pretty w, S w) |}.

End Sim.

(** ** A small network to run the program on

  The device at 10.0.0.1 announces 10.0.0.2 by CDP (twice, on two links)
  and 10.0.0.2 and 10.0.0.3 by LLDP; 10.0.0.2 answers, 10.0.0.3 does
  not exist. *)
Module Example.

Definition cdp_of_sw1 : string :=
"-------------------------
Device ID: SW2
Entry address(es):
  IP address: 10.0.0.2
Platform: cisco WS-C3750,  Capabilities: Switch IGMP
Interface: GigabitEthernet0/1,  Port ID (outgoing port): GigabitEthernet1/0/1
-------------------------
Device ID: SW2
Entry address(es):
  IP address: 10.0.0.2
Platform: cisco WS-C3750,  Capabilities: Switch IGMP
Interface: GigabitEthernet0/2,  Port ID (outgoing port): GigabitEthernet1/0/2
-------------------------
Device ID: PHONE
Platform: Cisco IP Phone,  Capabilities: Host Phone
Interface: GigabitEthernet0/3,  Port ID (outgoing port): Port 1
".

Definition lldp_of_sw1 : string :=
"Device ID: a
Local Interface: Gi0/1
Port ID: Gi1/0/1
System Name: switch-two
Management Address: 10.0.0.2
Time remaining: 112 seconds

Device ID: b
Local Interface: Gi0/4
Port ID: Gi1/0/4
System Name: SW3
Management Address: 10.0.0.3
Time remaining: 95 seconds
".

Definition version_of_sw1 : string :=
"Cisco IOS Software, C3750 Software (C3750-IPBASE-M), Version 12.2(35)SE5, RELEASE
cisco WS-C3750-24TS (PowerPC405) processor (revision L0) with 131072K bytes
SW1 uptime is 1 week
".

Definition sw1 : Sim.device :=
  Sim.Device "10.0.0.1"
    [ ("show version", inl version_of_sw1);
      ("show cdp neighbors detail", inl cdp_of_sw1);
      ("show lldp neighbors detail", inl lldp_of_sw1);
      ("show vlan brief", inr "Pattern not detected") ].

Definition sw2 : Sim.device := Sim.Device "10.0.0.2" [].

Definition lab : Netmiko := Sim.netmiko [sw1; sw2].

(** Two CDP blocks, the second without an address. *)
Definition two_blocks : string :=
"Device ID: SW7
  IP address: 10.0.0.7
-----
Device ID: PHONE
".

(** Two CDP records for one neighbor (two links), one LLDP record for it. *)
Definition link1 : record :=
  <["ip" := "10.0.0.2"]> (<["device_id" := "SW2"]>
    (<["local_interface" := "Gi0/1"]> ∅)).
Definition link2 : record :=
  <["ip" := "10.0.0.2"]> (<["device_id" := "SW2"]>
    (<["local_interface" := "Gi0/2"]> ∅)).
Definition by_lldp : record :=
  <["ip" := "10.0.0.2"]> (<["device_id" := "switch-two"]> ∅).

(** Two records as a TextFSM template gives them when it finds no address:
  the key is there, with the empty string. *)
Definition blank_cdp : record :=
  <["ip" := ""]> (<["device_id" := "AP1"]> ∅).
Definition blank_lldp : record :=
  <["ip" := ""]> (<["device_id" := "AP2"]> ∅).

Definition credentials : record :=
  <["username" := "admin"]> (<["device_type" := "cisco_ios"]> ∅).

Definition seed (ip : string) : record := <["ip" := ip]> credentials.

(** [discover_network] with the libraries above. *)
Definition run (fuel : nat) (seed_devices : list record) (max_devices : Z)
    (ignore_subnets : option (list string))
    : option (gmap string device_data * nat) :=
  @discover_network IPv4.ipaddress Backtrack.re lab fuel seed_devices
    max_devices ignore_subnets 0.

(** The loop of [discover_network] with the libraries above, from the
    start of a run. *)
Definition loop (fuel : nat) (seed_devices : list record) (max_devices : Z)
    (ignore_subnets : option (list string)) : option (frontier * nat) :=
  @discover_loop IPv4.ipaddress Backtrack.re lab fuel max_devices
    (@ignored_networks_of IPv4.ipaddress ignore_subnets)
    (initial seed_devices) 0.

End Example.

(** ** Tactics *)

(** The cases of a turn of the loop. *)
Ltac turn_cases H := inversion H; subst; simpl in *.

(** Unfold the computations on the world down to the calls of the
    collaborators. *)
Ltac unfold_device :=
  cbv beta zeta delta [discover_single_device bind connect ret].
Ltac unfold_turn := cbv beta zeta delta [loop_body bind ret].

(** ** The rest of the program: what uses the store

  [main] strips the raw output before it saves the store;
  [DiagramGenerator.build_graph] makes the graph of it;
  [WebInterface._get_device_types] lists the device types in it. *)

(** More of Python's [str], on code points below 256. *)
Module PyStr.

(** [c.lower()]: A to Z, and the capital letters from 192 to 222 but for
    the multiplication sign 215, move up by 32. *)
Definition lower_char (c : ascii) : ascii :=
  let n := nat_of_ascii c in
  if (Nat.leb 65 n && Nat.leb n 90)
     || (Nat.leb 192 n && Nat.leb n 222 && negb (Nat.eqb n 215))
  then ascii_of_nat (n + 32) else c.

(** [s.lower()] *)
Fixpoint lower (s : string) : string :=
  match s with
  | EmptyString => EmptyString
  | String c s' => String (lower_char c) (lower s')
  end.

(** [s.startswith(p)] *)
Fixpoint startswith (p s : string) : bool :=
  match p, s with
  | EmptyString, _ => true
  | String _ _, EmptyString => false
  | String a p', String b s' => Ascii.eqb a b && startswith p' s'
  end.

(** [needle in hay] *)
Fixpoint contains (needle hay : string) : bool :=
  startswith needle hay
  || match hay with
     | EmptyString => false
     | String _ hay' => contains needle hay'
     end.

(** [tuple(sorted([a, b]))] *)
Definition sorted_pair (a b : string) : string * string :=
  if String.leb a b then (a, b) else (b, a).

End PyStr.

(** *** network_discovery.py, [main] *)

(** [clean_data = data.copy()] and [del clean_data['raw_output']] when the
  key is there. *)
Definition clean_data (data : device_data) : device_data :=
  if decide (is_Some (data !! "raw_output")) then delete "raw_output" data
  else data.

(** [for ip, data in devices.items(): ...] on [clean_devices]. *)
Fixpoint clean_loop (items : list (string * device_data))
    (clean_devices : gmap string device_data) : gmap string device_data :=
  match items with
  | [] => clean_devices
  | (ip, data) :: items =>
      clean_loop items (<[ip := clean_data data]> clean_devices)
  end.

(** The store as [main] gives it to [yaml.dump]. *)
Definition clean_devices (devices : gmap string device_data)
    : gmap string device_data :=
  clean_loop (map_to_list devices) ∅.

(** *** web_interface.py *)

(** [for device in self.device_data.values(): ...] on [device_types]. A
  value that is a list or a dictionary cannot be put in a set: [None]
  stands for the [TypeError]. *)
Fixpoint device_types_loop (devices : list device_data)
    (device_types : gset string) : option (gset string) :=
  match devices with
  | [] => Some device_types
  | device :: devices =>
      match default (VStr "unknown") (device !! "device_type") with
      | VStr t => device_types_loop devices ({[t]} ∪ device_types)
      | _ => None
      end
  end.

(** [_get_device_types]: the list it returns has the elements of the set,
  in no order that the program fixes. *)
Definition _get_device_types (device_data : gmap string device_data)
    : option (gset string) :=
  device_types_loop (map_to_list device_data).*2 ∅.

(** *** diagram_generator.py *)

(** [device_data.get(key, '').lower()]: [None] stands for the
  [AttributeError] of a value that is no string. *)
Definition get_lower (device_data : device_data) (key : string)
    : option string :=
  match device_data !! key with
  | None => Some (PyStr.lower "")
  | Some (VStr s) => Some (PyStr.lower s)
  | Some _ => None
  end.

(** [any(t in s for t in markers)] *)
Definition any_in (markers : list string) (s : string) : bool :=
  existsb (λ t, PyStr.contains t s) markers.

Definition _determine_device_type (device_data : device_data)
    : option string :=
  match get_lower device_data "hardware" with
  | None => None
  | Some hardware =>
      match get_lower device_data "hostname" with
      | None => None
      | Some hostname =>
          Some
            (if any_in ["cat"; "2960"; "3750"; "9300"] hardware then "switch"
             else if any_in ["isr"; "4300"; "4400"; "1900"; "2900"; "3900"]
                       hardware then "router"
             else if any_in ["asa"; "firepower"] hardware then "firewall"
             else if PyStr.contains "sw" hostname then "switch"
             else if PyStr.contains "rt" hostname
                     || PyStr.contains "rtr" hostname then "router"
             else if PyStr.contains "fw" hostname then "firewall"
             else "switch")
      end
  end.

(** What [build_graph] does to the graph it has cleared. *)
Inductive graph_call :=
| add_node (node : string) (label : value) (device_type : string)
    (data : device_data)
| add_edge (u v : string) (local_interface remote_interface : string).

(** The first loop of [build_graph], over [devices.items()]. *)
Fixpoint add_nodes (items : list (string * device_data))
    : option (list graph_call) :=
  match items with
  | [] => Some []
  | (device_ip, device_data) :: items =>
      let hostname := default (VStr device_ip) (device_data !! "hostname") in
      match _determine_device_type device_data with
      | None => None
      | Some device_type =>
          match add_nodes items with
          | None => None
          | Some calls =>
              Some (add_node device_ip hostname device_type device_data
                      :: calls)
          end
      end
  end.

(** [for neighbor in device_data['neighbors']: ...] on the calls made so far
  and on [added_connections]; [keys] are the keys of [devices]. *)
Fixpoint neighbor_edges (keys : list string) (source_ip : string)
    (neighbors : list record) (calls : list graph_call)
    (added_connections : gset (string * string))
    : list graph_call * gset (string * string) :=
  match neighbors with
  | [] => (calls, added_connections)
  | neighbor :: neighbors =>
      match get_ip neighbor with
      | Some neighbor_ip =>
          if Py.truthy neighbor_ip && bool_decide (neighbor_ip ∈ keys) then
            let connection_id := PyStr.sorted_pair source_ip neighbor_ip in
            if decide (connection_id ∉ added_connections) then
              let local_intf := default "" (neighbor !! "local_interface") in
              let remote_intf :=
                default "" (neighbor !! "remote_interface") in
              neighbor_edges keys source_ip neighbors
                (calls ++ [add_edge source_ip neighbor_ip local_intf
                             remote_intf])
                ({[connection_id]} ∪ added_connections)
            else
              neighbor_edges keys source_ip neighbors calls added_connections
          else neighbor_edges keys source_ip neighbors calls added_connections
      | None =>
          neighbor_edges keys source_ip neighbors calls added_connections
      end
  end.

(** A value under ['neighbors'] that is no list of records: the [for] over
  it does nothing when it has no element, and raises on the first one. *)
Definition no_element (v : value) : bool :=
  match v with
  | VStr s => negb (Py.truthy s)
  | VNeighbors l => match l with [] => true | _ => false end
  | VInterfaces m => bool_decide (m = ∅)
  | VResults m => bool_decide (m = ∅)
  end.

(** The second loop of [build_graph], over [devices.items()]. *)
Fixpoint device_edges (keys : list string)
    (items : list (string * device_data)) (calls : list graph_call)
    (added_connections : gset (string * string))
    : option (list graph_call) :=
  match items with
  | [] => Some calls
  | (source_ip, device_data) :: items =>
      match device_data !! "neighbors" with
      | None => device_edges keys items calls added_connections
      | Some (VNeighbors neighbors) =>
          let '(calls, added_connections) :=
            neighbor_edges keys source_ip neighbors calls added_connections in
          device_edges keys items calls added_connections
      | Some v =>
          if no_element v then
            device_edges keys items calls added_connections
          else None
      end
  end.

(** [build_graph]: [devices] are the items of the dictionary, in its order;
  the result lists the calls on the cleared graph, in their order; [None]
  stands for an exception. *)
Definition build_graph (devices : list (string * device_data))
    : option (list graph_call) :=
  match add_nodes devices with
  | None => None
  | Some nodes =>
      match device_edges devices.*1 devices [] ∅ with
      | None => None
      | Some edges => Some (nodes ++ edges)
      end
  end.

(** The nodes and the edges among the calls. *)
Definition node_of (c : graph_call) : option string :=
  match c with add_node n _ _ _ => Some n | add_edge _ _ _ _ => None end.

Definition edge_of (c : graph_call) : option (string * string) :=
  match c with add_edge u v _ _ => Some (u, v) | add_node _ _ _ _ => None end.

(** The unordered pair an edge joins. *)
Definition connection_of (c : graph_call) : option (string * string) :=
  match c with
  | add_edge u v _ _ => Some (PyStr.sorted_pair u v)
  | add_node _ _ _ _ => None
  end.

(** *** Names for the statements *)

(** [intf.get('interface', 'unknown')], the key [parse_interfaces] files a
  record under. *)
Definition interface_name (intf : record) : string :=
  default "unknown" (intf !! "interface").

(** [device_data['neighbors']] when it is a list of records. *)
Definition neighbors_of (device_data : device_data) : list record :=
  match device_data !! "neighbors" with
  | Some (VNeighbors neighbors) => neighbors
  | _ => []
  end.

(** The keys a record of [discover_single_device] can have. *)
Definition device_keys : gset string :=
  {[ "ip"; "discovered_at"; "hardware"; "version"; "hostname";
     "neighbors"; "interfaces"; "raw_output" ]}.

(** *** The small network *)
Module Lab.

Definition seeds : list record := [Example.seed "10.0.0.1"].

(** The state and the world after the first turn of a run from [seeds],
  with no subnet ignored. *)
Definition first_turn : frontier * nat :=
  @loop_body IPv4.ipaddress Backtrack.re Example.lab [] (initial seeds) 0.

(** The state and the world after the second turn, the visit of
  10.0.0.2. *)
Definition second_turn : frontier * nat :=
  @loop_body IPv4.ipaddress Backtrack.re Example.lab [] first_turn.1
    first_turn.2.

(** The store a run from [seeds] returns: 10.0.0.1 with its neighbors,
  10.0.0.2 with none, 10.0.0.3 that did not answer. *)
Definition store : gmap string device_data :=
  default ∅ (fst <$> Example.run 10 seeds 5 None).

(** Its items, in the order the run stored them. *)
Definition devices : list (string * device_data) :=
  (λ ip, (ip, default ∅ (store !! ip))) <$>
    ["10.0.0.1"; "10.0.0.2"; "10.0.0.3"].

End Lab.

(** A closed decidable statement, by evaluation of its decision. *)
Ltac vm_decide := apply (bool_decide_unpack _); vm_compute; exact I.

(** * Properties *)

#[local] Set Warnings "-clear-no-such-hyp".

(** ** The parser *)

Section ParserFacts.
Context `{PyRe}.

Lemma set_if_match_lookup key m (neighbor : record) k :
  set_if_match key m neighbor !! k =
    if decide (key = k) then
      match m with Some g => Some (Py.strip g) | None => neighbor !! k end
    else neighbor !! k.
Proof.
  unfold set_if_match. destruct m as [g|]; [|by case_decide].
  by rewrite lookup_insert.
Qed.

(** The loop only appends to the list it is given. *)
Lemma block_loop_acc p blocks acc :
  block_loop p blocks acc = acc ++ block_loop p blocks [].
Proof.
  revert acc. destruct p; simpl;
    (induction blocks as [|b blocks IH]; intros acc; simpl;
     [ by rewrite app_nil_r
     | destruct (negb _); [apply IH|];
       destruct (essential _); [|apply IH];
       rewrite IH, (IH [_]); by rewrite app_assoc ]).
Qed.

Lemma block_loop_cons p block blocks :
  block_loop p (block :: blocks) [] =
    (if negb (Py.truthy (Py.strip block)) then []
     else if essential (block_neighbor p block)
          then [block_neighbor p block] else [])
    ++ block_loop p blocks [].
Proof.
  destruct p; simpl;
    (destruct (negb _); [done|]; destruct (essential _); [|done]).
  - apply (block_loop_acc CDP).
  - apply (block_loop_acc LLDP).
Qed.

Lemma block_loop_app p before after :
  block_loop p (before ++ after) [] =
    block_loop p before [] ++ block_loop p after [].
Proof.
  induction before as [|b before IH]; [by destruct p|].
  rewrite <- app_comm_cons, !block_loop_cons, IH. by rewrite app_assoc.
Qed.

Lemma block_loop_essential p blocks (r : record) :
  r ∈ block_loop p blocks [] → essential r = true.
Proof.
  induction blocks as [|b blocks IH]; [destruct p; by intros ?%elem_of_nil|].
  rewrite block_loop_cons, elem_of_app. intros [Hr|Hr]; [|by apply IH].
  revert Hr. destruct (negb _); [by intros ?%elem_of_nil|].
  destruct (essential (block_neighbor p b)) eqn:E; [|by intros ?%elem_of_nil].
  by intros ->%list_elem_of_singleton.
Qed.

Lemma parse_neighbors_raw p text :
  parse_neighbors p (RawText text) =
    block_loop p (re_split (split_pattern p) text) [].
Proof. by destruct p. Qed.

(** Each key of the record of a block is set by its own pattern alone. *)
Lemma block_neighbor_lookup p block key pattern :
  (key, pattern) ∈ fields p →
  block_neighbor p block !! key = Py.strip <$> re_search pattern block.
Proof.
  intros Hin. destruct p; simpl in Hin;
    repeat (apply elem_of_cons in Hin as [[= -> ->]|Hin]);
    try (by apply elem_of_nil in Hin);
    simpl; unfold cdp_block_neighbor, lldp_block_neighbor;
    repeat (rewrite set_if_match_lookup; case_decide; try done);
    by destruct (re_search _ _).
Qed.

Lemma block_neighbor_other p block key :
  key ∉ (fields p).*1 → block_neighbor p block !! key = None.
Proof.
  intros Hkey. destruct p; simpl in *;
    unfold cdp_block_neighbor, lldp_block_neighbor;
    repeat (rewrite set_if_match_lookup; case_decide;
            [subst; exfalso; apply Hkey; set_solver|]);
    apply lookup_empty.
Qed.

Lemma essential_needs_both p block :
  re_search (id_pattern p) block = None ∨
  re_search (address_pattern p) block = None →
  essential (block_neighbor p block) = false.
Proof.
  unfold essential.
  rewrite (block_neighbor_lookup p block "device_id" (id_pattern p))
    by (destruct p; set_solver).
  rewrite (block_neighbor_lookup p block "ip" (address_pattern p))
    by (destruct p; set_solver).
  intros [-> | ->]; simpl; [done|]. by rewrite andb_false_r.
Qed.

(** C4: for both protocols and every text, a block in which the pattern of
    the device identifier or the pattern of the address finds nothing adds
    no record: the result is what the loop gives on the other blocks. The
    parser is a total function of the text (nothing is raised). Every key of
    the record of any block is set by its own pattern and by no other: it is
    the stripped match when that pattern matches, and absent otherwise. *)
Theorem block_without_id_or_address_is_dropped
    (p : protocol) (text block : string) (before after : list string) :
  re_split (split_pattern p) text = before ++ block :: after →
  re_search (id_pattern p) block = None ∨
    re_search (address_pattern p) block = None →
  parse_neighbors p (RawText text) = block_loop p (before ++ after) []
  ∧ (∀ b key pattern, (key, pattern) ∈ fields p →
       block_neighbor p b !! key = Py.strip <$> re_search pattern b)
  ∧ (∀ b key, key ∉ (fields p).*1 → block_neighbor p b !! key = None).
Proof.
  intros Hsplit Hnone. split_and!.
  - rewrite parse_neighbors_raw, Hsplit, !block_loop_app.
    f_equal. rewrite block_loop_cons, (essential_needs_both _ _ Hnone).
    by destruct (negb _).
  - intros b key pattern. apply block_neighbor_lookup.
  - intros b key. apply block_neighbor_other.
Qed.

(** C10: on structured input [parse_version] returns a record as it is and
    the first element of a list that has one; the empty list comes back as
    the empty list, which is no mapping. *)
Theorem parse_version_structured :
  (∀ d, parse_version (VersionDict d) = OutDict d)
  ∧ (∀ first rest, parse_version (VersionList (first :: rest)) = OutDict first)
  ∧ parse_version (VersionList []) = OutEmptyList
  ∧ is_mapping (parse_version (VersionList [])) = false.
Proof. by split_and!. Qed.

End ParserFacts.

(** On two blocks of which the second has no address, one record comes
    out. *)
Lemma block_without_id_or_address_is_dropped_witness :
  @parse_neighbors Backtrack.re CDP (RawText Example.two_blocks) =
    [<["ip" := "10.0.0.7"]> (<["device_id" := "SW7"]> ∅)].
Proof.
  pose proof (@block_without_id_or_address_is_dropped Backtrack.re CDP
    Example.two_blocks (String Backtrack.LF "Device ID: PHONE" +:+ String Backtrack.LF "")
    [ "Device ID: SW7" +:+ String Backtrack.LF "  IP address: 10.0.0.7"
      +:+ String Backtrack.LF "" ] []) as Hthm.
  destruct Hthm as [-> _];
    [vm_compute; reflexivity | right; vm_compute; reflexivity
    | vm_compute; reflexivity].
Defined.

(** ** The reconciler *)

Lemma merge_lldp_spec lldp : ∀ all ips, ∃ kept,
  merge_lldp lldp all ips = all ++ kept
  ∧ kept `sublist_of` lldp
  ∧ (∀ k, k ∈ kept → get_ip k ∉ ips)
  ∧ NoDup (get_ip <$> kept)
  ∧ (∀ l, l ∈ lldp → get_ip l ∈ ips ∨ get_ip l ∈ get_ip <$> kept).
Proof.
  induction lldp as [|l lldp IH]; intros all ips; simpl.
  - exists []. rewrite app_nil_r.
    split_and!; [done|constructor| |constructor| ];
      by intros ? ?%elem_of_nil.
  - case_decide as Hl.
    + destruct (IH (all ++ [l]) ({[get_ip l]} ∪ ips))
        as (kept & -> & Hsub & Hnot & Hnd & Hall).
      exists (l :: kept). rewrite <- app_assoc. split_and!.
      * done.
      * by constructor.
      * intros k [->|Hk]%elem_of_cons; [done|]. apply Hnot in Hk. set_solver.
      * rewrite fmap_cons. apply NoDup_cons. split; [|done].
        intros (k & Heq & Hk)%list_elem_of_fmap.
        apply Hnot in Hk. set_solver.
      * intros l' [->|Hl']%elem_of_cons; [right; rewrite fmap_cons; by left|].
        destruct (Hall l' Hl') as [[Hs%elem_of_singleton|?]%elem_of_union|?];
          [right; rewrite fmap_cons, Hs; by left | by left
          | right; rewrite fmap_cons; by right].
    + destruct (IH all ips) as (kept & -> & Hsub & Hnot & Hnd & Hall).
      exists kept. split_and!; [done|by constructor|done|done|].
      intros l' [->|Hl']%elem_of_cons; [by left|by apply Hall].
Qed.

Lemma with_ip_none a (l : list record) :
  (∀ k, k ∈ l → get_ip k ≠ Some a) → with_ip a l = [].
Proof.
  intros Hl. unfold with_ip. induction l as [|k l IH]; [done|].
  rewrite filter_cons. case_decide as Hk.
  - destruct (Hl k); [by left|done].
  - apply IH. intros k' ?. apply Hl. by right.
Qed.

(** What [merge_neighbors] returns: the CDP list, then LLDP records in
    their order, with pairwise different addresses, none of which is a
    non-empty address of the CDP list. *)
Lemma merge_neighbors_spec cdp lldp : ∃ kept,
  merge_neighbors cdp lldp = cdp ++ kept
  ∧ kept `sublist_of` lldp
  ∧ NoDup (get_ip <$> kept)
  ∧ (∀ k c, k ∈ kept → c ∈ cdp → get_ip k = get_ip c →
       Py.truthy_opt (get_ip c) = false).
Proof.
  unfold merge_neighbors.
  destruct (merge_lldp_spec lldp cdp
    (list_to_set (get_ip <$>
       filter (λ n, Is_true (Py.truthy_opt (get_ip n))) cdp)))
    as (kept & -> & Hsub & Hnot & Hnd & _).
  exists kept. split_and!; [done..|].
  intros k c Hk Hc Heq. apply Hnot in Hk.
  destruct (Py.truthy_opt (get_ip c)) eqn:Ht; [|done].
  exfalso. apply Hk. rewrite elem_of_list_to_set, list_elem_of_fmap.
  exists c. split; [done|]. apply list_elem_of_filter. by rewrite Ht.
Qed.

(** C2, amended: for every pair of lists and every non-empty address that
    exactly one CDP record [c] carries, the merged list has exactly one
    record with that address, and it is [c], whatever the LLDP list holds;
    the merged list is the CDP list followed by records of the LLDP list in
    their order. *)
Theorem merge_keeps_the_cdp_record (cdp lldp : list record) (a : string)
    (c : record) :
  a ≠ "" →
  with_ip a cdp = [c] →
  with_ip a (merge_neighbors cdp lldp) = [c]
  ∧ ∃ kept, merge_neighbors cdp lldp = cdp ++ kept ∧ kept `sublist_of` lldp.
Proof.
  intros Ha Hc.
  destruct (merge_neighbors_spec cdp lldp) as (kept & -> & Hsub & _ & Hnot).
  split; [|by exists kept].
  assert (with_ip a (cdp ++ kept) = with_ip a cdp ++ with_ip a kept) as ->
    by apply filter_app.
  rewrite Hc, (with_ip_none a kept); [done|].
  intros k Hk Heq.
  assert (c ∈ with_ip a cdp) as Hin by (rewrite Hc; by left).
  apply list_elem_of_filter in Hin as [Hca Hin].
  specialize (Hnot k c Hk Hin). rewrite Heq, Hca in Hnot.
  specialize (Hnot eq_refl). simpl in Hnot. by destruct a.
Qed.

(** One CDP record and one LLDP record for 10.0.0.2: the CDP one stays. *)
Lemma merge_keeps_the_cdp_record_witness :
  with_ip "10.0.0.2"
    (merge_neighbors [Example.link1] [Example.by_lldp]) = [Example.link1].
Proof.
  apply (merge_keeps_the_cdp_record [Example.link1] [Example.by_lldp]
           "10.0.0.2" Example.link1); [done|vm_compute; reflexivity].
Defined.

(** C2 as it is stated fails: a neighbor reached over two links has two CDP
    records, and both stay in the merged list; and an address that is the
    empty string is not tracked, so the LLDP record with it stays beside
    the CDP one. *)
Lemma merge_keeps_both_cdp_links :
  (∃ (cdp lldp : list record) (a : string),
     (∃ c, c ∈ cdp ∧ get_ip c = Some a)
     ∧ (∃ l, l ∈ lldp ∧ get_ip l = Some a)
     ∧ with_ip a (merge_neighbors cdp lldp)
         = [Example.link1; Example.link2])
  ∧ (∃ (cdp lldp : list record) (a : string),
       (∃ c, c ∈ cdp ∧ get_ip c = Some a)
       ∧ (∃ l, l ∈ lldp ∧ get_ip l = Some a)
       ∧ with_ip a (merge_neighbors cdp lldp)
           = [Example.blank_cdp; Example.blank_lldp]).
Proof.
  split.
  - exists [Example.link1; Example.link2], [Example.by_lldp], "10.0.0.2".
    split_and!.
    + exists Example.link1. split; [by left|vm_compute; reflexivity].
    + exists Example.by_lldp. split; [by left|vm_compute; reflexivity].
    + vm_compute; reflexivity.
  - exists [Example.blank_cdp], [Example.blank_lldp], "".
    split_and!.
    + exists Example.blank_cdp. split; [by left|vm_compute; reflexivity].
    + exists Example.blank_lldp. split; [by left|vm_compute; reflexivity].
    + vm_compute; reflexivity.
Qed.

(** ** The connector *)

Section ConnectorFacts.
Context `{Netmiko}.

Lemma execute_commands_loop_app conn before after po results w :
  execute_commands_loop conn (before ++ after) po results w =
    let '(rb, w1) := execute_commands_loop conn before po results w in
    execute_commands_loop conn after po rb w1.
Proof.
  revert results w. induction before as [|c before IH]; intros results w.
  - done.
  - simpl. unfold bind. destruct (send conn c po w) as [[output|e] w1];
      apply IH.
Qed.

Lemma execute_commands_loop_dom conn commands po results w :
  dom (execute_commands_loop conn commands po results w).1 =
    list_to_set commands ∪ dom results.
Proof.
  revert results w. induction commands as [|c commands IH]; intros results w.
  - simpl. set_solver.
  - simpl. unfold bind. destruct (send conn c po w) as [[output|e] w1];
      rewrite IH, dom_insert_L; set_solver.
Qed.

Lemma execute_commands_loop_other conn commands po results w command :
  command ∉ commands →
  (execute_commands_loop conn commands po results w).1 !! command =
    results !! command.
Proof.
  revert results w. induction commands as [|c commands IH];
    intros results w Hnot; [done|].
  apply not_elem_of_cons in Hnot as [Hne Hnot].
  simpl. unfold bind. destruct (send conn c po w) as [[output|e] w1];
    rewrite IH by done; by rewrite lookup_insert_ne.
Qed.

(** C9: for every connection, command list and world, the map
    [execute_commands] returns has an entry for exactly the commands of the
    list. When a command raises, the loop goes on with the commands after
    it, from a map that holds the error text under the key of that command;
    the entry is still there at the end when the command does not come
    again. *)
Theorem command_failure_is_captured (conn : connection) (po : bool) :
  (∀ commands w,
     dom (execute_commands conn commands po w).1 = list_to_set commands)
  ∧ (∀ before command after w rb w1 e w2,
       execute_commands conn before po w = (rb, w1) →
       send conn command po w1 = (inr e, w2) →
       execute_commands conn (before ++ command :: after) po w =
         execute_commands_loop conn after po
           (<[command := RawText ("ERROR: " +:+ e)]> rb) w2
       ∧ (command ∉ after →
          (execute_commands conn (before ++ command :: after) po w).1
            !! command = Some (RawText ("ERROR: " +:+ e)))).
Proof.
  split.
  - intros commands w. unfold execute_commands.
    rewrite execute_commands_loop_dom. set_solver.
  - intros before command after w rb w1 e w2 Hbefore Hsend.
    assert (execute_commands conn (before ++ command :: after) po w =
      execute_commands_loop conn after po
        (<[command := RawText ("ERROR: " +:+ e)]> rb) w2) as Heq.
    { unfold execute_commands in *.
      rewrite execute_commands_loop_app, Hbefore.
      simpl. unfold bind. by rewrite Hsend. }
    split; [done|]. intros Hnot.
    rewrite Heq, execute_commands_loop_other by done.
    apply lookup_insert_eq.
Qed.

End ConnectorFacts.

(** The sixth discovery command raises on the device at 10.0.0.1. *)
Lemma command_failure_is_captured_witness :
  (@execute_commands Example.lab Example.sw1 discovery_commands false 0).1
    !! "show vlan brief" = Some (RawText "ERROR: Pattern not detected").
Proof.
  destruct (@command_failure_is_captured Example.lab Example.sw1 false)
    as [_ Hfail].
  pose (before := take 5 discovery_commands).
  pose (r := @execute_commands Example.lab Example.sw1 before false 0).
  destruct (Hfail before "show vlan brief" (drop 6 discovery_commands) 0
              r.1 r.2 "Pattern not detected" 6) as [_ Hentry].
  - apply surjective_pairing.
  - vm_compute; reflexivity.
  - apply Hentry. compute_done.
Defined.

(** ** One device *)

Section SingleDeviceFacts.
Context `{PyRe} `{Netmiko}.

(** Without TextFSM every entry of the map of results is text. *)
Lemma execute_commands_loop_text conn commands results w :
  (∀ c v, results !! c = Some v → ∃ s, v = RawText s) →
  ∀ c v,
    (execute_commands_loop conn commands false results w).1 !! c = Some v →
    ∃ s, v = RawText s.
Proof.
  revert results w. induction commands as [|c0 commands IH];
    intros results w Hres; [done|].
  simpl. unfold bind, send, ret.
  destruct (send_command conn c0 w) as [[output|e] w1];
    apply IH; intros c v; rewrite lookup_insert;
    (case_decide; [intros [= <-]; eauto|apply Hres]).
Qed.

Lemma execute_commands_text conn commands w command :
  ∃ s, default (RawText "")
         ((execute_commands conn commands false w).1 !! command) = RawText s.
Proof.
  destruct (_ !! command) as [v|] eqn:Hv; simpl; [|by eexists].
  eapply execute_commands_loop_text in Hv as [s ->]; [by eexists|].
  intros c v'. by rewrite lookup_empty.
Qed.

Lemma merge_neighbors_elem_of cdp lldp (r : record) :
  r ∈ merge_neighbors cdp lldp → r ∈ cdp ∨ r ∈ lldp.
Proof.
  destruct (merge_neighbors_spec cdp lldp) as (kept & -> & Hsub & _).
  rewrite elem_of_app. intros [?|Hr]; [by left|right].
  by eapply elem_of_sublist.
Qed.

(** A connection that fails leaves the two entries the record starts with. *)
Lemma discover_single_device_failed params w ts w1 e w2 :
  now_isoformat w = (ts, w1) →
  ConnectHandler params w1 = (inr e, w2) →
  discover_single_device params w =
    (<["discovered_at" := VStr ts]>
       {["ip" := VStr (default "unknown" (params !! "ip"))]}, w2).
Proof.
  intros Hnow Hconnect.
  unfold_device.
  rewrite Hnow. cbv beta iota zeta. by rewrite Hconnect.
Qed.

(** The neighbors of a device record come from text, so each has both
    essential fields. *)
Lemma discover_single_device_neighbors params w neighbors (r : record) :
  (discover_single_device params w).1 !! "neighbors"
    = Some (VNeighbors neighbors) →
  r ∈ neighbors → essential r = true.
Proof.
  unfold_device.
  destruct (now_isoformat w) as [ts w1].
  destruct (ConnectHandler params w1) as [[conn|e] w2]; simpl; [|done].
  destruct (execute_commands conn discovery_commands false w2)
    as [results w3] eqn:Hresults.
  destruct (disconnect conn w3) as [[] w4]. simpl.
  rewrite !lookup_insert_ne, lookup_insert_eq by done.
  intros [= <-] [Hr|Hr]%merge_neighbors_elem_of; revert Hr.
  - destruct (execute_commands_text conn discovery_commands w2
                "show cdp neighbors detail") as [s Hs].
    rewrite Hresults in Hs. simpl in Hs. rewrite Hs.
    apply (block_loop_essential CDP (re_split (split_pattern CDP) s)).
  - destruct (execute_commands_text conn discovery_commands w2
                "show lldp neighbors detail") as [s Hs].
    rewrite Hresults in Hs. simpl in Hs. rewrite Hs.
    apply (block_loop_essential LLDP (re_split (split_pattern LLDP) s)).
Qed.

End SingleDeviceFacts.

(** ** The traversal *)

Lemma get_ip_insert a (params : record) : get_ip (<["ip" := a]> params) = Some a.
Proof. apply lookup_insert_eq. Qed.

Lemma with_ip_NoDup a (l : list record) :
  NoDup (get_ip <$> l) → List.length (with_ip a l) ≤ 1.
Proof.
  induction l as [|k l IH]; [simpl; lia|].
  rewrite fmap_cons, NoDup_cons. intros [Hnot Hnd].
  unfold with_ip. rewrite filter_cons. case_decide as Ha; [|by apply IH].
  fold (with_ip a l). rewrite (with_ip_none a l); [simpl; lia|].
  intros k' Hk' Hka. apply Hnot. rewrite Ha, <- Hka.
  apply list_elem_of_fmap. by exists k'.
Qed.

Section NetworkFacts.
Context `{PyIpaddress} `{PyRe} `{Netmiko}.

(** What one pass over the neighbors of a device appends to the queue. *)
Lemma enqueue_neighbors_spec nets params attempted neighbors : ∀ queue,
  ∃ added,
    enqueue_neighbors nets params attempted neighbors queue = queue ++ added
    ∧ NoDup (get_ip <$> added)
    ∧ ∀ q, q ∈ added →
        (get_ip q ∉ attempted) ∧ (get_ip q ∉ get_ip <$> queue)
        ∧ ∃ n a, n ∈ neighbors ∧ get_ip n = Some a ∧ q = <["ip" := a]> params.
Proof.
  induction neighbors as [|n neighbors IH]; intros queue; simpl.
  { exists []. rewrite app_nil_r.
    split_and!; [done|constructor|by intros ? ?%elem_of_nil]. }
  assert (∃ added,
    enqueue_neighbors nets params attempted neighbors queue = queue ++ added
    ∧ NoDup (get_ip <$> added)
    ∧ ∀ q, q ∈ added →
        (get_ip q ∉ attempted) ∧ (get_ip q ∉ get_ip <$> queue)
        ∧ ∃ n' a, n' ∈ n :: neighbors ∧ get_ip n' = Some a
                  ∧ q = <["ip" := a]> params) as Hskip.
  { destruct (IH queue) as (added & -> & Hnd & Hq). exists added.
    split_and!; [done..|]. intros q Hin.
    destruct (Hq q Hin) as (? & ? & n' & a & ? & ? & ?).
    split_and!; [done..|]. exists n', a. split_and!; [by right|done..]. }
  destruct (get_ip n) as [nip|] eqn:Hn; [|exact Hskip].
  destruct (Py.truthy nip && bool_decide (Some nip ∉ attempted)
            && bool_decide (Some nip ∉ (get_ip <$> queue))) eqn:Hc;
    [|exact Hskip].
  destruct (ip_address nip); [|exact Hskip].
  destruct (in_ignored nets _); [exact Hskip|].
  apply andb_true_iff in Hc as [[_ Ha]%andb_true_iff Hq].
  apply bool_decide_eq_true in Ha, Hq.
  destruct (IH (queue ++ [<["ip" := nip]> params]))
    as (added & -> & Hnd & Hadded).
  exists (<["ip" := nip]> params :: added). rewrite <- app_assoc.
  split_and!; [done| |].
  - rewrite fmap_cons. apply NoDup_cons. split; [|done].
    intros (q & Heq & Hin)%list_elem_of_fmap.
    destruct (Hadded q Hin) as (_ & Hnq & _). apply Hnq.
    rewrite fmap_app, elem_of_app. right. rewrite <- Heq. by left.
  - intros q [->|Hin]%elem_of_cons.
    + rewrite get_ip_insert. split_and!; [done..|].
      exists n, nip. split_and!; [by left|done..].
    + destruct (Hadded q Hin) as (? & Hnq & n' & a' & ? & ? & ?).
      split_and!; [done| |].
      * intros Hx. apply Hnq. rewrite fmap_app, elem_of_app. by left.
      * exists n', a'. split_and!; [by right|done..].
Qed.

Lemma loop_body_turn nets st w st' w' :
  discovery_queue st ≠ [] →
  loop_body nets st w = (st', w') →
  turn nets st w st' w'.
Proof.
  destruct st as [discovered [|params queue] attempted seen]; [done|].
  intros _. unfold_turn. simpl.
  pose proof (turn_skip nets params queue discovered attempted seen w)
    as Hskip.
  case_decide as Hdup; [intros [= <- <-]; by constructor|].
  specialize (Hskip Hdup).
  destruct (get_ip params) as [ip|] eqn:Hip; simpl in Hskip;
    [|intros [= <- <-]; by apply Hskip].
  destruct (ip_address ip) as [a|] eqn:Ha;
    [|intros [= <- <-]; by apply Hskip].
  destruct (in_ignored nets a) eqn:Hign;
    [intros [= <- <-]; by apply Hskip|].
  destruct (discover_single_device params w) as [data w1] eqn:Hdata.
  intros [= <- <-]. by eapply turn_visit.
Qed.

Lemma loop_test_queue max st :
  loop_test max st = true →
  discovery_queue st ≠ []
  ∧ (Z.of_nat (size (discovered_devices st)) < max)%Z.
Proof.
  unfold loop_test. destruct (discovery_queue st); [done|].
  by intros ?%bool_decide_eq_true.
Qed.

(** A property of the start that every turn keeps holds in every state of
    a run. *)
Lemma run_state_invariant (P : frontier → Prop) seeds max ign w0 :
  P (initial seeds) →
  (∀ st w st' w',
     P st → loop_test max st = true →
     turn (ignored_networks_of ign) st w st' w' → P st') →
  ∀ st w, run_state seeds max ign w0 st w → P st.
Proof.
  intros Hstart Hturn st w Hrun.
  induction Hrun as [|st w st' w' _ IH Htest Hbody]; [done|].
  eapply Hturn; [done..|].
  apply loop_body_turn; [|done]. by apply loop_test_queue in Htest as [? _].
Qed.

Lemma turn_stored_attempted nets st w st' w' :
  stored_attempted st → turn nets st w st' w' → stored_attempted st'.
Proof.
  unfold stored_attempted.
  intros Hst Hturn; turn_cases Hturn; intros ip' Hsome.
  - by apply Hst.
  - apply elem_of_union_r. by apply Hst.
  - apply lookup_insert_is_Some in Hsome as [->|[_ Hsome]];
      [by apply elem_of_union_l, elem_of_singleton|].
    apply elem_of_union_r. by apply Hst.
Qed.

Lemma run_stored_attempted seeds max ign w0 st w :
  run_state seeds max ign w0 st w → stored_attempted st.
Proof.
  apply (run_state_invariant stored_attempted).
  - intros ip. simpl. rewrite lookup_empty. by intros [? ?].
  - intros ? ? ? ? ? _ ?. by eapply turn_stored_attempted.
Qed.

Lemma turn_size nets st w st' w' :
  turn nets st w st' w' →
  size (discovered_devices st') ≤ S (size (discovered_devices st)).
Proof.
  intros Hturn; turn_cases Hturn; [lia..|].
  rewrite map_size_insert. destruct (_ !! _); simpl; lia.
Qed.

Lemma run_size seeds max ign w0 st w :
  run_state seeds max ign w0 st w →
  (Z.of_nat (size (discovered_devices st)) ≤ Z.max 0 max)%Z.
Proof.
  apply (run_state_invariant
    (λ st, (Z.of_nat (size (discovered_devices st)) ≤ Z.max 0 max)%Z)).
  - simpl. rewrite map_size_empty. lia.
  - intros st0 w1 st' w' _ [_ Hlt]%loop_test_queue Hsize%turn_size. lia.
Qed.

(** The state [discover_loop] ends in is a state of the run, and the test
    of the loop fails in it. *)
Lemma discover_loop_run_state seeds max ign w0 fuel : ∀ st w st' w',
  run_state seeds max ign w0 st w →
  discover_loop fuel max (ignored_networks_of ign) st w = Some (st', w') →
  run_state seeds max ign w0 st' w' ∧ loop_test max st' = false.
Proof.
  induction fuel as [|fuel IH]; intros st w st' w' Hrun; simpl;
    destruct (loop_test max st) eqn:Htest; try done;
    try (by intros [= <- <-]).
  destruct (loop_body (ignored_networks_of ign) st w) as [st1 w1] eqn:Hbody.
  apply IH. by eapply run_turn.
Qed.

(** The loop ends: a visit brings the store closer to the cap, every other
    turn shortens the queue. *)
Lemma discover_loop_ends max nets n : ∀ st w,
  stored_attempted st →
  Z.to_nat (max - Z.of_nat (size (discovered_devices st))) ≤ n →
  ∃ fuel r, discover_loop fuel max nets st w = Some r.
Proof.
  induction n as [n IHn] using lt_wf_ind. intros st.
  remember (List.length (discovery_queue st)) as len eqn:Hlen.
  revert st Hlen. induction len as [|len IHlen]; intros st Hlen w Hinv Hn.
  { exists 0. simpl. unfold loop_test.
    destruct (discovery_queue st); [eauto|done]. }
  destruct (loop_test max st) eqn:Htest;
    [|exists 0; simpl; rewrite Htest; eauto].
  destruct (loop_body nets st w) as [st' w'] eqn:Hbody.
  pose proof (loop_test_queue _ _ Htest) as [Hq Hsize].
  pose proof (loop_body_turn _ _ _ _ _ Hq Hbody) as Hturn.
  pose proof (turn_stored_attempted _ _ _ _ _ Hinv Hturn) as Hinv'.
  assert (∃ fuel r, discover_loop fuel max nets st' w' = Some r)
    as (fuel & r & Hr).
  { turn_cases Hturn.
    - apply IHlen; [simpl; congruence|done..].
    - apply IHlen; [simpl; congruence|done..].
    - apply (IHn (Z.to_nat
        (max - Z.of_nat (size (<[ip := data]> discovered))))); [|done..].
      rewrite map_size_insert_None; [lia|].
      apply eq_None_not_Some. intros Hsome.
      match goal with Hnot : Some ip ∉ _ |- _ => apply Hnot end.
      by apply Hinv. }
  exists (S fuel), r. simpl. by rewrite Htest, Hbody.
Qed.

(** C1: for every seed list, every cap that is not negative, every list
    of ignored subnets and every behaviour of the session collaborator,
    the store holds at most [max_devices] devices in every state of the
    run. The store changes once in a turn of the loop, so the states
    between two turns are covered. The run ends, and the store it returns
    is within the same bound. (A negative cap is no count of devices: the
    loop is then not entered and the store stays empty.) *)
Theorem store_never_exceeds_cap (seeds : list record) (max : Z)
    (ign : option (list string)) (w0 : world) :
  (0 ≤ max)%Z →
  (∀ st w, run_state seeds max ign w0 st w →
     (Z.of_nat (size (discovered_devices st)) ≤ max)%Z)
  ∧ ∃ fuel devices w',
      discover_network fuel seeds max ign w0 = Some (devices, w')
      ∧ (Z.of_nat (size devices) ≤ max)%Z.
Proof.
  intros Hmax. split.
  { intros st w Hrun%run_size. lia. }
  destruct (discover_loop_ends max (ignored_networks_of ign)
              (Z.to_nat max) (initial seeds) w0) as (fuel & [st w] & Hloop).
  { intros ip. simpl. rewrite lookup_empty. by intros [? ?]. }
  { simpl. rewrite map_size_empty. lia. }
  exists fuel, (discovered_devices st), w. unfold discover_network.
  rewrite Hloop. split; [done|].
  assert (run_state seeds max ign w0 st w) as Hrun%run_size
    by (eapply discover_loop_run_state; [apply run_start|done]).
  lia.
Qed.

(** C5, amended: in one pass over the neighbors of a device the addresses
    of the queue are read again for every neighbor, the entries appended
    earlier in the pass included. So the entries a pass appends have
    pairwise different addresses (an address that is twice in the list is
    enqueued at most once), and none of them was attempted or queued
    before. *)
Theorem enqueue_pass_adds_an_address_once (nets : list ip_net)
    (params : record) (attempted : gset (option string))
    (neighbors queue : list record) :
  ∃ added,
    enqueue_neighbors nets params attempted neighbors queue = queue ++ added
    ∧ NoDup (get_ip <$> added)
    ∧ (∀ a, List.length (with_ip a added) ≤ 1)
    ∧ ∀ q, q ∈ added →
        (get_ip q ∉ attempted) ∧ (get_ip q ∉ get_ip <$> queue).
Proof.
  destruct (enqueue_neighbors_spec nets params attempted neighbors queue)
    as (added & Heq & Hnd & Hq).
  exists added. split_and!; [done..| |].
  - intros a. by apply with_ip_NoDup.
  - intros q Hin. destruct (Hq q Hin) as (? & ? & _). by split.
Qed.

Lemma turn_visited_once nets st w st' w' :
  visited_once st → turn nets st w st' w' → visited_once st'.
Proof.
  unfold visited_once. intros [Hnd Hatt] Hturn.
  turn_cases Hturn.
  - done.
  - split; [done|]. intros p Hp. apply elem_of_union_r. by apply Hatt.
  - split.
    + apply NoDup_cons. split; [|done].
      intros (p & Heq & Hp)%list_elem_of_fmap. apply Hatt in Hp.
      match goal with Hip : get_ip _ = Some ip |- _ => rewrite Hip in Heq end.
      by rewrite <- Heq in Hp.
    + intros p [->|Hp]%elem_of_cons.
      * apply elem_of_union_l, elem_of_singleton. done.
      * apply elem_of_union_r. by apply Hatt.
Qed.

(** The visited addresses are the keys of the store. *)
Lemma run_visited_stored seeds max ign w0 st w :
  run_state seeds max ign w0 st w →
  ∀ ip, is_Some (discovered_devices st !! ip) ↔
        Some ip ∈ get_ip <$> visited st.
Proof.
  apply (run_state_invariant
    (λ st, ∀ ip, is_Some (discovered_devices st !! ip) ↔
                 Some ip ∈ get_ip <$> visited st)).
  - intros ip. simpl. rewrite lookup_empty. split; [by intros [? ?]|].
    by intros ?%elem_of_nil.
  - intros st0 w1 st' w' Hst _ Hturn.
    turn_cases Hturn; [done..|].
    intros ip'. rewrite lookup_insert_is_Some', elem_of_cons, Hst.
    match goal with Hip : get_ip _ = Some ip |- _ => rewrite Hip end.
    split; (intros [?|?]; [left; congruence|by right]).
Qed.

(** C6: in every state of every run, whatever the seeds (an address may be
    there twice) and whatever the devices answer, the addresses
    [discover_single_device] was called for are pairwise different. *)
Theorem no_address_is_visited_twice (seeds : list record) (max : Z)
    (ign : option (list string)) (w0 : world) (st : frontier) (w : world) :
  run_state seeds max ign w0 st w →
  NoDup (get_ip <$> visited st).
Proof.
  intros Hrun. eapply proj1.
  revert st w Hrun. apply (run_state_invariant visited_once).
  - split; [constructor|]. by intros ? ?%elem_of_nil.
  - intros ? ? ? ? ? _ ?. by eapply turn_visited_once.
Qed.

Lemma in_ignored_elem nets a network :
  network ∈ nets → net_contains network a = true → in_ignored nets a = true.
Proof.
  intros Hin Hc. unfold in_ignored. apply existsb_exists.
  exists network. split; [by apply list_elem_of_In|done].
Qed.

Lemma prepare_networks_elem subnets subnet network :
  subnet ∈ subnets → ip_network subnet = Some network →
  network ∈ prepare_networks subnets.
Proof.
  induction subnets as [|s subnets IH]; intros Hin Hn;
    [by apply elem_of_nil in Hin|].
  simpl. apply elem_of_cons in Hin as [<-|Hin].
  - rewrite Hn. by left.
  - destruct (ip_network s); [right|]; by apply IH.
Qed.

Lemma turn_stored_allowed nets st w st' w' :
  stored_allowed nets st → turn nets st w st' w' → stored_allowed nets st'.
Proof.
  unfold stored_allowed.
  intros Hst Hturn; turn_cases Hturn; [done..|].
  intros ip' [->|[_ Hsome]]%lookup_insert_is_Some; [by exists a|].
  by apply Hst.
Qed.

Lemma run_stored_allowed seeds max ign w0 st w :
  run_state seeds max ign w0 st w →
  stored_allowed (ignored_networks_of ign) st.
Proof.
  apply (run_state_invariant (stored_allowed (ignored_networks_of ign))).
  - intros ip. simpl. rewrite lookup_empty. by intros [? ?].
  - intros ? ? ? ? ? _ ?. by eapply turn_stored_allowed.
Qed.

(** C7: for every run, every configured subnet that parses as a network
    and every address in that network: in no state of the run is the
    address a key of the store; and when the entry at the head of the queue
    has that address, the turn of the loop pops it, puts the address in
    [attempted] and changes nothing else (no session is opened, nothing is
    stored). *)
Theorem excluded_address_is_never_stored (seeds : list record) (max : Z)
    (subnets : list string) (w0 : world) (st : frontier) (w : world)
    (subnet : string) (network : ip_net) (ip : string) (a : ip_addr) :
  subnet ∈ subnets →
  ip_network subnet = Some network →
  ip_address ip = Some a →
  net_contains network a = true →
  run_state seeds max (Some subnets) w0 st w →
  discovered_devices st !! ip = None
  ∧ ∀ params queue,
      discovery_queue st = params :: queue →
      get_ip params = Some ip →
      loop_body (ignored_networks_of (Some subnets)) st w =
        (Frontier (discovered_devices st) queue
           ({[Some ip]} ∪ attempted_ips st) (visited st), w).
Proof.
  intros Hsubnet Hnetwork Haddr Hin Hrun.
  assert (in_ignored (ignored_networks_of (Some subnets)) a = true) as Hign.
  { eapply in_ignored_elem; [|done]. by eapply prepare_networks_elem. }
  split.
  - apply eq_None_not_Some. intros Hsome.
    apply (run_stored_allowed _ _ _ _ _ _ Hrun) in Hsome
      as (a' & Ha' & Hfalse).
    congruence.
  - intros params queue Hqueue Hip. destruct st as [discovered q attempted seen].
    simpl in *. subst q.
    unfold_turn. simpl. rewrite Hip.
    case_decide as Hdup.
    + do 2 f_equal. symmetry. apply subseteq_union_1_L.
      by apply singleton_subseteq_l.
    + by rewrite Haddr, Hign.
Qed.

(** C8: when the entry at the head of the queue has an address that was
    not attempted, parses and is not ignored, and the connection to it
    fails, the turn of the loop stores under that address a record with
    two entries, the address and the time of discovery, puts the address in
    [attempted] and leaves the rest of the queue as it is; the loop then
    goes on from that state. *)
Theorem failed_connection_stores_minimal_record (nets : list ip_net)
    (st : frontier) (w : world) (params : record) (queue : list record)
    (ip : string) (a : ip_addr) (ts : string) (w1 : world) (e : string)
    (w2 : world) :
  discovery_queue st = params :: queue →
  get_ip params = Some ip →
  Some ip ∉ attempted_ips st →
  ip_address ip = Some a →
  in_ignored nets a = false →
  now_isoformat w = (ts, w1) →
  ConnectHandler params w1 = (inr e, w2) →
  ∃ minimal : device_data,
    loop_body nets st w =
      (Frontier (<[ip := minimal]> (discovered_devices st)) queue
         ({[Some ip]} ∪ attempted_ips st) (params :: visited st), w2)
    ∧ minimal !! "ip" = Some (VStr ip)
    ∧ minimal !! "discovered_at" = Some (VStr ts)
    ∧ dom minimal = {["ip"; "discovered_at"]}
    ∧ ∀ max fuel, loop_test max st = true →
        discover_loop (S fuel) max nets st w =
          discover_loop fuel max nets
            (Frontier (<[ip := minimal]> (discovered_devices st)) queue
               ({[Some ip]} ∪ attempted_ips st) (params :: visited st)) w2.
Proof.
  intros Hqueue Hip Hnew Haddr Hign Hnow Hconnect.
  exists (<["discovered_at" := VStr ts]> {["ip" := VStr ip]}).
  assert (loop_body nets st w =
    (Frontier (<[ip := <["discovered_at" := VStr ts]> {["ip" := VStr ip]}]>
                 (discovered_devices st)) queue
       ({[Some ip]} ∪ attempted_ips st) (params :: visited st), w2)) as Hbody.
  { destruct st as [discovered q attempted seen]. simpl in *. subst q.
    unfold_turn. simpl. rewrite Hip.
    rewrite decide_False by done. rewrite Haddr, Hign.
    rewrite (discover_single_device_failed params w ts w1 e w2) by done.
    unfold get_ip in Hip. rewrite Hip. simpl.
    by rewrite lookup_insert_ne, lookup_singleton_ne. }
  split_and!; [done| | | |].
  - by rewrite lookup_insert_ne, lookup_singleton_eq.
  - by rewrite lookup_insert_eq.
  - rewrite dom_insert_L, dom_singleton_L. set_solver.
  - intros max fuel Htest. simpl. by rewrite Htest, Hbody.
Qed.

Lemma turn_stored_returned nets st w st' w' :
  stored_returned st → turn nets st w st' w' → stored_returned st'.
Proof.
  unfold stored_returned.
  intros Hst Hturn; turn_cases Hturn; [done..|].
  intros ip' data'. rewrite lookup_insert. case_decide; [|apply Hst].
  intros [= <-]. exists device_params, w.
  match goal with Hd : discover_single_device _ _ = _ |- _ => by rewrite Hd end.
Qed.

Lemma run_stored_returned seeds max ign w0 st w :
  run_state seeds max ign w0 st w → stored_returned st.
Proof.
  apply (run_state_invariant stored_returned).
  - intros ip data. simpl. by rewrite lookup_empty.
  - intros ? ? ? ? ? _ ?. by eapply turn_stored_returned.
Qed.

Lemma from_text_essential (r : record) : from_text r → essential r = true.
Proof.
  intros [p text Hr|params w neighbors Hn Hr
         |seeds max ign w0 st w ip data neighbors Hrun Hdata Hn Hr].
  - rewrite parse_neighbors_raw in Hr. by eapply block_loop_essential.
  - by eapply discover_single_device_neighbors.
  - apply (run_stored_returned _ _ _ _ _ _ Hrun) in Hdata
      as (params & w' & ->).
    by eapply discover_single_device_neighbors.
Qed.

Lemma essential_both (r : record) :
  essential r = true →
  ∃ id a, r !! "device_id" = Some id ∧ id ≠ ""
          ∧ r !! "ip" = Some a ∧ a ≠ "".
Proof.
  unfold essential. intros [Hid Ha]%andb_true_iff.
  destruct (r !! "device_id") as [id|]; [|done].
  destruct (r !! "ip") as [a|]; [|done].
  exists id, a. split_and!; [done| |done| ]; by intros ->.
Qed.

(** C3, amended: a neighbor record that comes from text has both a device
    identifier and an address, neither of them empty: this holds for what
    either parser returns on text, for the neighbors of every record
    [discover_single_device] returns (it asks for text, never for TextFSM
    records) and for the neighbors of every record stored in any state of
    any run. Every entry a visit appends to the queue is made from such a
    record, with its address. (A list of records given to a parser comes
    back as it is, unfiltered.) *)
Theorem records_from_text_have_id_and_address :
  (∀ r, from_text r →
     ∃ id a, r !! "device_id" = Some id ∧ id ≠ ""
             ∧ r !! "ip" = Some a ∧ a ≠ "")
  ∧ (∀ nets params w attempted queue q,
       q ∈ drop (List.length queue)
             (queue_after nets params attempted
                (discover_single_device params w).1 queue) →
       ∃ n a, from_text n ∧ get_ip n = Some a ∧ q = <["ip" := a]> params).
Proof.
  split.
  - intros r Hr. by apply essential_both, from_text_essential.
  - intros nets params w attempted queue q. unfold queue_after.
    destruct (_ !! "neighbors") as [[|neighbors| |]|] eqn:Hn;
      try (rewrite drop_all; by intros ?%elem_of_nil).
    destruct (enqueue_neighbors_spec nets params attempted neighbors queue)
      as (added & -> & _ & Hadded).
    rewrite drop_app_length. intros Hq.
    destruct (Hadded q Hq) as (_ & _ & n & a & Hin & Hip & ->).
    exists n, a. split_and!; [|done..]. by eapply text_returned.
Qed.

End NetworkFacts.

(** ** The program on the small network *)

Example two_blocks_parsed :
  @parse_neighbors Backtrack.re CDP (RawText Example.two_blocks) =
    [<["ip" := "10.0.0.7"]> (<["device_id" := "SW7"]> ∅)].
Proof. vm_compute; reflexivity. Qed.

(** A block that ends with a blank device identifier: the pattern matches,
    the identifier is the empty string after [strip], and the block is
    dropped like a block without one. *)
Example blank_id_is_dropped :
  @parse_neighbors Backtrack.re CDP
    (RawText ("IP address: 10.0.0.9" +:+ String Backtrack.LF "Device ID: "
              +:+ String Backtrack.LF "")) = []
  ∧ @re_search Backtrack.re (id_pattern CDP)
      ("IP address: 10.0.0.9" +:+ String Backtrack.LF "Device ID: "
       +:+ String Backtrack.LF "") = Some " ".
Proof. split; vm_compute; reflexivity. Qed.

(** The scenario of the specification: CDP announces 10.0.0.2, LLDP
    10.0.0.2 under another name and 10.0.0.3. Here CDP has 10.0.0.2 on two
    links, so the merged list has both. *)
Example scenario_merged_addresses :
  get_ip <$> merge_neighbors
    (@parse_cdp_neighbors Backtrack.re (RawText Example.cdp_of_sw1))
    (@parse_lldp_neighbors Backtrack.re (RawText Example.lldp_of_sw1)) =
  [Some "10.0.0.2"; Some "10.0.0.2"; Some "10.0.0.3"].
Proof. vm_compute; reflexivity. Qed.

(** With a cap of 5 the three addresses are visited, each once, although
    10.0.0.1 is seeded twice and 10.0.0.2 announced three times. *)
Example scenario_visits :
  (λ r, get_ip <$> visited r.1) <$>
    Example.loop 10 [Example.seed "10.0.0.1"; Example.seed "10.0.0.1"] 5 None
  = Some [Some "10.0.0.3"; Some "10.0.0.2"; Some "10.0.0.1"].
Proof. vm_compute; reflexivity. Qed.

(** With a cap of 1 only the seed is stored, and its neighbors stay in the
    queue. *)
Example scenario_cap_1 :
  (λ r, (elements (dom (discovered_devices r.1)),
         get_ip <$> discovery_queue r.1)) <$>
    Example.loop 10 [Example.seed "10.0.0.1"] 1 None
  = Some (["10.0.0.1"], [Some "10.0.0.2"; Some "10.0.0.3"]).
Proof. vm_compute; reflexivity. Qed.

(** With 10.0.0.0/24 ignored the seed is skipped: attempted, not stored. *)
Example scenario_excluded :
  (λ r, (elements (dom (discovered_devices r.1)),
         elements (attempted_ips r.1))) <$>
    Example.loop 10 [Example.seed "10.0.0.1"] 5 (Some ["10.0.0.0/24"])
  = Some ([], [Some "10.0.0.1"]).
Proof. vm_compute; reflexivity. Qed.

(** A neighbor on two links is put in the queue once. *)
Example scenario_two_links_enqueued_once :
  get_ip <$> @enqueue_neighbors IPv4.ipaddress [] Example.credentials ∅
               [Example.link1; Example.link2] []
  = [Some "10.0.0.2"].
Proof. vm_compute; reflexivity. Qed.

(** ** The theorems above on the small network, and the inputs on which
    a statement of the specification fails *)

(** A run with a cap of 1, after its first turn: the device at 10.0.0.1
    is stored, and the store is at the cap. *)
Lemma store_never_exceeds_cap_witness :
  size (discovered_devices
          (@loop_body IPv4.ipaddress Backtrack.re Example.lab []
             (initial [Example.seed "10.0.0.1"]) 0).1) = 1
  ∧ (Z.of_nat
       (size (discovered_devices
                (@loop_body IPv4.ipaddress Backtrack.re Example.lab []
                   (initial [Example.seed "10.0.0.1"]) 0%nat).1)) ≤ 1)%Z.
Proof.
  split; [vm_compute; reflexivity|].
  assert (0 ≤ 1)%Z as Hcap by lia.
  apply (proj1 (@store_never_exceeds_cap IPv4.ipaddress Backtrack.re
    Example.lab [Example.seed "10.0.0.1"] 1 None 0 Hcap) _
    (@loop_body IPv4.ipaddress Backtrack.re Example.lab []
       (initial [Example.seed "10.0.0.1"]) 0).2).
  eapply run_turn; [apply run_start|vm_compute; reflexivity|].
  apply surjective_pairing.
Defined.

(** The record parsed from the two blocks. *)
Lemma records_from_text_have_id_and_address_witness :
  ∃ id a,
    (<["ip" := "10.0.0.7"]> (<["device_id" := "SW7"]> ∅) : record)
      !! "device_id" = Some id ∧ id ≠ ""
    ∧ (<["ip" := "10.0.0.7"]> (<["device_id" := "SW7"]> ∅) : record)
        !! "ip" = Some a ∧ a ≠ "".
Proof.
  apply (proj1 (@records_from_text_have_id_and_address IPv4.ipaddress
    Backtrack.re Example.lab)).
  apply (@text_parsed IPv4.ipaddress Backtrack.re Example.lab _ CDP
    Example.two_blocks).
  rewrite two_blocks_parsed. by left.
Defined.

(** C3 as it is stated fails on the structured path: a list of records
    comes back as it is, with a record that has neither field. *)
Lemma structured_records_are_not_filtered :
  ∃ r : record,
    r ∈ @parse_cdp_neighbors Backtrack.re (Structured [∅])
    ∧ r ∈ @parse_lldp_neighbors Backtrack.re (Structured [∅])
    ∧ r !! "device_id" = None ∧ r !! "ip" = None.
Proof. exists ∅. split_and!; [by left|by left|done|done]. Qed.

(** A pass over the two links to 10.0.0.2. *)
Lemma enqueue_pass_adds_an_address_once_witness :
  ∃ added,
    @enqueue_neighbors IPv4.ipaddress [] Example.credentials ∅
      [Example.link1; Example.link2] [] = [] ++ added
    ∧ NoDup (get_ip <$> added)
    ∧ (∀ a, List.length (with_ip a added) ≤ 1)
    ∧ ∀ q, q ∈ added → (get_ip q ∉ (∅ : gset (option string)))
                       ∧ (get_ip q ∉ get_ip <$> ([] : list record)).
Proof.
  exact (@enqueue_pass_adds_an_address_once IPv4.ipaddress [] 
           Example.credentials ∅ [Example.link1; Example.link2] []).
Defined.

(** C5 as it is stated fails: for no implementation of [ipaddress], no
    queue and no list of neighbors that has a new address twice does a pass
    append two entries with that address. *)
Lemma second_occurrence_is_not_enqueued :
  ¬ ∃ (lib : PyIpaddress) (nets : list ip_net) (params : record)
      (attempted : gset (option string)) (neighbors queue : list record)
      (a : string),
      2 ≤ List.length (with_ip a neighbors)
      ∧ (Some a ∉ attempted)
      ∧ (Some a ∉ get_ip <$> queue)
      ∧ 2 ≤ List.length
              (with_ip a
                 (drop (List.length queue)
                    (enqueue_neighbors nets params attempted neighbors
                       queue))).
Proof.
  intros (lib & nets & params & attempted & neighbors & queue & a
          & _ & _ & _ & Htwice).
  destruct (enqueue_neighbors_spec nets params attempted neighbors queue)
    as (added & Heq & Hnd & _).
  rewrite Heq, drop_app_length in Htwice.
  pose proof (with_ip_NoDup a added Hnd). lia.
Qed.

(** A run that is seeded with 10.0.0.1 twice. *)
Lemma no_address_is_visited_twice_witness :
  ∃ st w,
    Example.loop 10 [Example.seed "10.0.0.1"; Example.seed "10.0.0.1"] 5 None
      = Some (st, w)
    ∧ NoDup (get_ip <$> visited st).
Proof.
  destruct (Example.loop 10
              [Example.seed "10.0.0.1"; Example.seed "10.0.0.1"] 5 None)
    as [[st w]|] eqn:Hloop; [|vm_compute in Hloop; discriminate Hloop].
  exists st, w. split; [done|].
  apply (@no_address_is_visited_twice IPv4.ipaddress Backtrack.re
           Example.lab [Example.seed "10.0.0.1"; Example.seed "10.0.0.1"]
           5 None 0 st w).
  eapply discover_loop_run_state; [apply run_start|exact Hloop].
Defined.

(** The seed 10.0.0.1 with 10.0.0.0/24 ignored: the first turn skips it. *)
Lemma excluded_address_is_never_stored_witness :
  @loop_body IPv4.ipaddress Backtrack.re Example.lab
    (@ignored_networks_of IPv4.ipaddress (Some ["10.0.0.0/24"]))
    (initial [Example.seed "10.0.0.1"]) 0
  = (Frontier ∅ [] ({[Some "10.0.0.1"]} ∪ ∅) [], 0).
Proof.
  refine (proj2 (@excluded_address_is_never_stored IPv4.ipaddress
    Backtrack.re Example.lab [Example.seed "10.0.0.1"] 5 ["10.0.0.0/24"] 0
    (initial [Example.seed "10.0.0.1"]) 0 "10.0.0.0/24"
    (167772160, 24)%Z "10.0.0.1" 167772161%Z _ _ _ _ _)
    (Example.seed "10.0.0.1") [] _ _).
  - by left.
  - vm_compute; reflexivity.
  - vm_compute; reflexivity.
  - vm_compute; reflexivity.
  - apply run_start.
  - done.
  - vm_compute; reflexivity.
Defined.

(** The seed 10.0.0.3, which no device answers for. *)
Lemma failed_connection_stores_minimal_record_witness :
  ∃ minimal : device_data,
    @loop_body IPv4.ipaddress Backtrack.re Example.lab []
      (initial [Example.seed "10.0.0.3"]) 0
    = (Frontier (<["10.0.0.3" := minimal]> ∅) []
         ({[Some "10.0.0.3"]} ∪ ∅) [Example.seed "10.0.0.3"], 2)
    ∧ minimal !! "ip" = Some (VStr "10.0.0.3")
    ∧ minimal !! "discovered_at" = Some (VStr "t0")
    ∧ dom minimal = {["ip"; "discovered_at"]}.
Proof.
  destruct (@failed_connection_stores_minimal_record IPv4.ipaddress
    Backtrack.re Example.lab [] (initial [Example.seed "10.0.0.3"]) 0
    (Example.seed "10.0.0.3") [] "10.0.0.3" 167772163%Z "t0" 1
    "timed out" 2) as (minimal & Hbody & Hip & Hts & Hdom & _).
  - done.
  - vm_compute; reflexivity.
  - apply not_elem_of_empty.
  - vm_compute; reflexivity.
  - done.
  - vm_compute; reflexivity.
  - vm_compute; reflexivity.
  - by exists minimal.
Defined.

(** * More properties *)

(** ** More on the parser *)

Section MoreParserFacts.
Context `{PyRe}.

Lemma parse_version_text_spec (text : string) :
  ∃ d : record,
    parse_version (VersionText text) = OutDict d
    ∧ d !! "hardware" =
        re_search "(?:cisco|Cisco)\s+(\S+)(?:\s+\S+){0,3}\s+processor" text
    ∧ d !! "version" =
        re_search "Cisco IOS Software.*Version\s+([^,\s]+)" text
    ∧ d !! "hostname" = re_search "(\S+)\s+uptime\s+is" text
    ∧ ∀ k, k ≠ "hardware" → k ≠ "version" → k ≠ "hostname" → d !! k = None.
Proof.
  eexists. split; [reflexivity|]. simpl.
  destruct (re_search "(?:cisco|Cisco)\s+(\S+)(?:\s+\S+){0,3}\s+processor" _),
    (re_search "Cisco IOS Software.*Version\s+([^,\s]+)" _),
    (re_search "(\S+)\s+uptime\s+is" _);
    split_and!; try done;
    intros k ? ? ?; by rewrite ?lookup_insert_ne.
Qed.

Lemma foldl_interfaces (l : list record) : ∀ (m : gmap string record) k,
  foldl (λ interface_dict intf,
           <[default "unknown" (intf !! "interface") := intf]> interface_dict)
    m l !! k =
  match last (filter (λ intf, interface_name intf = k) l) with
  | Some intf => Some intf
  | None => m !! k
  end.
Proof.
  induction l as [|intf l IH] using rev_ind; intros m k; [done|].
  rewrite foldl_app, filter_app. simpl. rewrite lookup_insert.
  fold (interface_name intf). rewrite filter_cons, filter_nil.
  case_decide as Hk.
  - by rewrite last_snoc.
  - rewrite app_nil_r. apply IH.
Qed.

(** X2: [parse_interfaces] gives the empty mapping on text, whatever the
    text. On a list of records it files each record under its
    ['interface'] entry, and under ['unknown'] when it has none; of the
    records with one name the last one stays. *)
Theorem parse_interfaces_last_wins :
  (∀ text, parse_interfaces (RawText text) = ∅)
  ∧ (∀ (l : list record) k,
       parse_interfaces (Structured l) !! k =
         last (filter (λ intf, interface_name intf = k) l)).
Proof.
  split; [done|]. intros l k. unfold parse_interfaces.
  rewrite foldl_interfaces, lookup_empty. by destruct (last _).
Qed.

End MoreParserFacts.

(** ** More on the reconciler *)

Lemma merge_neighbors_addresses_iff cdp lldp (a : option string) :
  a ∈ get_ip <$> merge_neighbors cdp lldp ↔
  a ∈ get_ip <$> cdp ∨ a ∈ get_ip <$> lldp.
Proof.
  unfold merge_neighbors.
  destruct (merge_lldp_spec lldp cdp
    (list_to_set (get_ip <$>
       filter (λ n, Is_true (Py.truthy_opt (get_ip n))) cdp)))
    as (kept & -> & Hsub & _ & _ & Hall).
  rewrite fmap_app, elem_of_app. split.
  - intros [?|(k & -> & Hk)%list_elem_of_fmap]; [by left|right].
    apply list_elem_of_fmap. exists k. split; [done|].
    by eapply elem_of_sublist.
  - intros [?|(l & -> & Hl)%list_elem_of_fmap]; [by left|].
    destruct (Hall l Hl) as [Hips|?]; [left|by right].
    apply elem_of_list_to_set, list_elem_of_fmap in Hips
      as (c & -> & [_ Hc]%list_elem_of_filter).
    apply list_elem_of_fmap. by exists c.
Qed.

(** X3: reconciling loses no address: an address ([None] for a record
    without one) is in the merged list exactly when a CDP record or an LLDP
    record has it. *)
Theorem merge_loses_no_address (cdp lldp : list record) (a : option string) :
  a ∈ get_ip <$> merge_neighbors cdp lldp ↔
  a ∈ get_ip <$> cdp ∨ a ∈ get_ip <$> lldp.
Proof. apply merge_neighbors_addresses_iff. Qed.

Lemma merge_lldp_first (l1 : list record) : ∀ lldp all ips l l2,
  lldp = l1 ++ l :: l2 →
  get_ip l ∉ ips →
  get_ip l ∉ get_ip <$> l1 →
  l ∈ merge_lldp lldp all ips.
Proof.
  induction l1 as [|x l1 IH]; intros lldp all ips l l2 -> Hips Hl1; simpl.
  - rewrite decide_True by done.
    destruct (merge_lldp_spec l2 (all ++ [l]) ({[get_ip l]} ∪ ips))
      as (kept & -> & _).
    rewrite !elem_of_app. left. right. by left.
  - rewrite fmap_cons in Hl1. apply not_elem_of_cons in Hl1 as [Hx Hl1].
    case_decide; (eapply IH; [done| |done]); [|done].
    rewrite elem_of_union, elem_of_singleton. by intros [?|?].
Qed.

(** X4: an address that no CDP record has and that the LLDP list has is in
    the merged list once, with the first LLDP record that has it. *)
Theorem merge_keeps_the_first_lldp_record (cdp lldp l1 l2 : list record)
    (l : record) (a : string) :
  lldp = l1 ++ l :: l2 →
  get_ip l = Some a →
  Some a ∉ get_ip <$> cdp →
  Some a ∉ get_ip <$> l1 →
  with_ip a (merge_neighbors cdp lldp) = [l].
Proof.
  intros Hlldp Ha Hcdp Hl1.
  assert (l ∈ merge_neighbors cdp lldp) as Hin.
  { unfold merge_neighbors. eapply merge_lldp_first; [done| |by rewrite Ha].
    rewrite Ha, elem_of_list_to_set.
    intros (c & Hc & [_ Hin]%list_elem_of_filter)%list_elem_of_fmap.
    apply Hcdp. apply list_elem_of_fmap. by exists c. }
  destruct (merge_neighbors_spec cdp lldp) as (kept & Heq & _ & Hnd & _).
  rewrite Heq in Hin |- *.
  assert (with_ip a (cdp ++ kept) = with_ip a cdp ++ with_ip a kept) as ->
    by apply filter_app.
  rewrite (with_ip_none a cdp).
  2:{ intros c Hc Hca. apply Hcdp. apply list_elem_of_fmap. by exists c. }
  apply elem_of_app in Hin as [Hin|Hin].
  { exfalso. apply Hcdp. apply list_elem_of_fmap. by exists l. }
  simpl. clear Heq. induction kept as [|k kept IH]; [by apply elem_of_nil in Hin|].
  rewrite fmap_cons in Hnd. apply NoDup_cons in Hnd as [Hk Hnd].
  unfold with_ip. rewrite filter_cons.
  apply elem_of_cons in Hin as [<-|Hin].
  - rewrite decide_True by done. f_equal. apply with_ip_none.
    intros k' Hk' Hk'a. apply Hk. rewrite Ha, <- Hk'a.
    apply list_elem_of_fmap. by exists k'.
  - rewrite decide_False; [by apply IH|].
    intros Hka. apply Hk. rewrite Hka, <- Ha.
    apply list_elem_of_fmap. by exists l.
Qed.

(** ** More on the connector *)

Section MoreConnectorFacts.
Context `{Netmiko}.

Lemma execute_commands_loop_world conn commands po : ∀ results w,
  (execute_commands_loop conn commands po results w).2 =
    foldl (λ w command, (send conn command po w).2) w commands.
Proof.
  induction commands as [|c commands IH]; intros results w; [done|].
  simpl. unfold bind.
  destruct (send conn c po w) as [[output|e] w1]; apply IH.
Qed.

(** X5: [execute_commands] sends every command of the list once, in the
    order of the list, whether commands before it raised or not: the world
    it leaves is the world after these sends, one after the other. *)
Theorem commands_are_sent_once_in_order (conn : connection)
    (commands : list string) (po : bool) (w : world) :
  (execute_commands conn commands po w).2 =
    foldl (λ w command, (send conn command po w).2) w commands.
Proof. apply execute_commands_loop_world. Qed.

(** X6: the output of a command that does not raise is stored as it is
    under the command; when a command is in the list more than once, the
    entry is the outcome of the last time it was sent. *)
Theorem command_output_is_stored (conn : connection) (po : bool)
    (before after : list string) (command : string) (w : world)
    (rb : gmap string parser_input) (w1 : world) (output : parser_input)
    (w2 : world) :
  execute_commands conn before po w = (rb, w1) →
  send conn command po w1 = (inl output, w2) →
  command ∉ after →
  (execute_commands conn (before ++ command :: after) po w).1 !! command
    = Some output.
Proof.
  intros Hbefore Hsend Hnot. unfold execute_commands in *.
  rewrite execute_commands_loop_app, Hbefore. simpl. unfold bind.
  rewrite Hsend, execute_commands_loop_other by done.
  apply lookup_insert_eq.
Qed.

End MoreConnectorFacts.

(** The first discovery command on the device at 10.0.0.1. *)
Lemma command_output_is_stored_witness :
  (@execute_commands Example.lab Example.sw1 discovery_commands false 0).1
    !! "show version" = Some (RawText Example.version_of_sw1).
Proof.
  apply (@command_output_is_stored Example.lab Example.sw1 false []
           (drop 1 discovery_commands) "show version" 0 ∅ 0
           (RawText Example.version_of_sw1) 1).
  - reflexivity.
  - vm_compute; reflexivity.
  - compute_done.
Defined.

(** ** More on one device *)

Section MoreSingleDeviceFacts.
Context `{PyRe} `{Netmiko}.

Lemma update_with_version_lookup (text : string) (d : device_data) :
  ∃ v : record,
    update_with (parse_version (VersionText text)) d = (VStr <$> v) ∪ d
    ∧ ∀ k, k ≠ "hardware" → k ≠ "version" → k ≠ "hostname" → v !! k = None.
Proof.
  destruct (parse_version_text_spec text) as (v & -> & _ & _ & _ & Hv).
  by exists v.
Qed.

(** What the record of a device holds, by the outcome of the connection. *)
Lemma discover_single_device_record params w :
  ∃ ts w1, now_isoformat w = (ts, w1) ∧
    ((∃ e w2, ConnectHandler params w1 = (inr e, w2)
        ∧ (discover_single_device params w).1 =
            <["discovered_at" := VStr ts]>
              {["ip" := VStr (default "unknown" (params !! "ip"))]})
     ∨ (∃ conn w2 (v : record) neighbors results,
          ConnectHandler params w1 = (inl conn, w2)
          ∧ results = (execute_commands conn discovery_commands false w2).1
          ∧ (∀ k, k ≠ "hardware" → k ≠ "version" → k ≠ "hostname" →
               v !! k = None)
          ∧ (discover_single_device params w).1 =
              <["raw_output" := VResults results]>
                (<["interfaces" := VInterfaces ∅]>
                   (<["neighbors" := VNeighbors neighbors]>
                      ((VStr <$> v) ∪
                       <["discovered_at" := VStr ts]>
                         {["ip" := VStr
                                     (default "unknown" (params !! "ip"))]}))))).
Proof.
  unfold_device.
  destruct (now_isoformat w) as [ts w1]. exists ts, w1. split; [done|].
  destruct (ConnectHandler params w1) as [[conn|e] w2]; simpl;
    [right|left; by exists e, w2].
  destruct (execute_commands conn discovery_commands false w2)
    as [results w3] eqn:Hresults.
  destruct (disconnect conn w3) as [[] w4]. simpl.
  destruct (execute_commands_text conn discovery_commands w2 "show version")
    as [sv Hsv].
  destruct (execute_commands_text conn discovery_commands w2
              "show interfaces") as [si Hsi].
  rewrite Hresults in Hsv, Hsi. simpl in Hsv, Hsi. rewrite Hsv, Hsi. simpl.
  destruct (update_with_version_lookup sv
    (<["discovered_at" := VStr ts]>
       {["ip" := VStr (default "unknown" (params !! "ip"))]}))
    as (v & Hv & Hkeys).
  simpl in Hv. rewrite Hv.
  eexists conn, w2, v, _, results.
  split_and!; [done|by rewrite Hresults|done..].
Qed.

Lemma discover_single_device_entries params w :
  (discover_single_device params w).1 !! "ip"
    = Some (VStr (default "unknown" (params !! "ip")))
  ∧ (discover_single_device params w).1 !! "discovered_at"
      = Some (VStr (now_isoformat w).1)
  ∧ dom (discover_single_device params w).1 ⊆ device_keys
  ∧ (∀ k, k ∈ ["hardware"; "version"; "hostname"] →
       ∃ o : option string,
         (discover_single_device params w).1 !! k = VStr <$> o).
Proof.
  destruct (discover_single_device_record params w)
    as (ts & w1 & Hnow & [(e & w2 & _ & ->)
                         |(conn & w2 & v & ns & results & _ & _ & Hv & ->)]);
    rewrite Hnow; simpl.
  - split_and!.
    + by rewrite lookup_insert_ne, lookup_singleton_eq.
    + by rewrite lookup_insert_eq.
    + rewrite dom_insert_L, dom_singleton_L. unfold device_keys. set_solver.
    + intros k Hk. exists None.
      rewrite lookup_insert_ne, lookup_singleton_ne; [done| |];
        intros <-; set_solver.
  - split_and!.
    + rewrite !lookup_insert_ne by done.
      rewrite lookup_union_r by (rewrite lookup_fmap, Hv; done).
      by rewrite lookup_insert_ne, lookup_singleton_eq.
    + rewrite !lookup_insert_ne by done.
      rewrite lookup_union_r by (rewrite lookup_fmap, Hv; done).
      by rewrite lookup_insert_eq.
    + rewrite !dom_insert_L, dom_union_L, dom_fmap_L, dom_insert_L,
        dom_singleton_L.
      assert (dom v ⊆ {["hardware"; "version"; "hostname"]}) as Hdom.
      { intros k [x Hx]%elem_of_dom.
        destruct (decide (k = "hardware")) as [->|?]; [set_solver|].
        destruct (decide (k = "version")) as [->|?]; [set_solver|].
        destruct (decide (k = "hostname")) as [->|?]; [set_solver|].
        rewrite Hv in Hx by done. done. }
      unfold device_keys. set_solver.
    + intros k Hk. exists (v !! k).
      rewrite !lookup_insert_ne by (intros <-; set_solver).
      rewrite lookup_union, lookup_fmap.
      rewrite lookup_insert_ne, lookup_singleton_ne by (intros <-; set_solver).
      by destruct (v !! k).
Qed.

(** X7: whatever the parameters and whatever the device does, the record
    [discover_single_device] returns has the address it was called for
    under ['ip'] (['unknown'] when the parameters have none; no command
    output can overwrite it) and the time of the call under
    ['discovered_at']; it has no key outside the eight of [device_keys],
    so never a ['device_type']. *)
Theorem device_record_entries (params : record) (w : world) :
  (discover_single_device params w).1 !! "ip"
    = Some (VStr (default "unknown" (params !! "ip")))
  ∧ (discover_single_device params w).1 !! "discovered_at"
      = Some (VStr (now_isoformat w).1)
  ∧ dom (discover_single_device params w).1 ⊆ device_keys.
Proof.
  destruct (discover_single_device_entries params w) as (? & ? & ? & _).
  by split_and!.
Qed.

(** X8: when the connection succeeds, the record has the three entries of a
    visited device; ['interfaces'] is always the empty mapping (the
    commands are sent without TextFSM, and [parse_interfaces] makes nothing
    of text); ['raw_output'] has an entry, text, for each of the eight
    discovery commands. *)
Theorem connected_device_record (params : record) (w : world) (ts : string)
    (w1 : world) (conn : connection) (w2 : world) :
  now_isoformat w = (ts, w1) →
  ConnectHandler params w1 = (inl conn, w2) →
  ∃ neighbors results,
    (discover_single_device params w).1 !! "neighbors"
      = Some (VNeighbors neighbors)
    ∧ (discover_single_device params w).1 !! "interfaces"
        = Some (VInterfaces ∅)
    ∧ (discover_single_device params w).1 !! "raw_output"
        = Some (VResults results)
    ∧ dom results = list_to_set discovery_commands
    ∧ ∀ c v, results !! c = Some v → ∃ s, v = RawText s.
Proof.
  intros Hnow Hconnect.
  destruct (discover_single_device_record params w)
    as (ts' & w1' & Hnow' & [(e & w2' & Hc & _)
         |(conn' & w2' & v & ns & results & Hc & Hres & _ & ->)]);
    rewrite Hnow in Hnow'; injection Hnow' as <- <-;
    rewrite Hconnect in Hc; [done|]. injection Hc as <- <-.
  exists ns, results. split_and!.
  - rewrite !lookup_insert_ne by done. apply lookup_insert_eq.
  - rewrite lookup_insert_ne by done. apply lookup_insert_eq.
  - apply lookup_insert_eq.
  - subst results. unfold execute_commands.
    rewrite execute_commands_loop_dom. set_solver.
  - subst results. intros c x. apply execute_commands_loop_text.
    intros c' x'. by rewrite lookup_empty.
Qed.

End MoreSingleDeviceFacts.

(** The device at 10.0.0.1 answers. *)
Lemma connected_device_record_witness :
  (@discover_single_device Backtrack.re Example.lab
     (Example.seed "10.0.0.1") 0).1 !! "interfaces" = Some (VInterfaces ∅).
Proof.
  destruct (@connected_device_record Backtrack.re Example.lab
    (Example.seed "10.0.0.1") 0 "t0" 1 Example.sw1 2)
    as (neighbors & results & _ & Hinterfaces & _).
  - vm_compute; reflexivity.
  - vm_compute; reflexivity.
  - exact Hinterfaces.
Defined.

(** ** More on the traversal *)

Lemma truthy_nonempty (s : string) : s ≠ "" → Py.truthy s = true.
Proof. by destruct s. Qed.

Section MoreNetworkFacts.
Context `{PyIpaddress} `{PyRe} `{Netmiko}.

Lemma queue_after_extends nets params attempted data queue :
  ∃ added, queue_after nets params attempted data queue = queue ++ added.
Proof.
  unfold queue_after.
  destruct (data !! "neighbors") as [[|neighbors| |]|];
    try (exists []; by rewrite app_nil_r).
  destruct (enqueue_neighbors_spec nets params attempted neighbors queue)
    as (added & -> & _).
  by exists added.
Qed.

(** X9: each time the test of the loop is evaluated (before the first
    turn and after every turn), in every run, every address that is a key
    of the store is in [attempted]. Inside a turn the record is stored one
    statement before its address is added to [attempted]. *)
Theorem stored_addresses_are_attempted (seeds : list record) (max : Z)
    (ign : option (list string)) (w0 : world) (st : frontier) (w : world)
    (ip : string) :
  run_state seeds max ign w0 st w →
  is_Some (discovered_devices st !! ip) →
  Some ip ∈ attempted_ips st.
Proof. intros Hrun. by apply (run_stored_attempted _ _ _ _ _ _ Hrun). Qed.

Lemma turn_grows nets st w st' w' :
  stored_attempted st → turn nets st w st' w' →
  discovered_devices st ⊆ discovered_devices st'
  ∧ attempted_ips st ⊆ attempted_ips st'.
Proof.
  intros Hst Hturn; turn_cases Hturn.
  - done.
  - split; [done|]. apply union_subseteq_r.
  - split; [|apply union_subseteq_r].
    apply insert_subseteq, eq_None_not_Some. intros Hsome.
    match goal with Hnot : Some ip ∉ _ |- _ => apply Hnot end.
    by apply Hst.
Qed.

(** X10: a turn of the loop of a run never takes a record out of the store
    and never changes one: what is stored before the turn is stored after
    it, as it was. The same holds for the addresses in [attempted]. *)
Theorem a_turn_keeps_what_is_stored (seeds : list record) (max : Z)
    (ign : option (list string)) (w0 : world) (st : frontier) (w : world)
    (st' : frontier) (w' : world) :
  run_state seeds max ign w0 st w →
  loop_test max st = true →
  loop_body (ignored_networks_of ign) st w = (st', w') →
  discovered_devices st ⊆ discovered_devices st'
  ∧ attempted_ips st ⊆ attempted_ips st'.
Proof.
  intros Hrun Htest Hbody.
  eapply turn_grows; [by eapply run_stored_attempted|].
  apply loop_body_turn; [|done]. by apply loop_test_queue in Htest as [? _].
Qed.

Lemma run_size_visited seeds max ign w0 st w :
  run_state seeds max ign w0 st w →
  stored_attempted st
  ∧ size (discovered_devices st) = List.length (visited st).
Proof.
  apply (run_state_invariant
    (λ st, stored_attempted st
           ∧ size (discovered_devices st) = List.length (visited st))).
  - split; [|simpl; by rewrite map_size_empty].
    intros ip. simpl. rewrite lookup_empty. by intros [? ?].
  - intros st0 w1 st' w' [Hst Hsize] _ Hturn.
    split; [by eapply turn_stored_attempted|].
    turn_cases Hturn; [done..|].
    rewrite map_size_insert_None; [by rewrite Hsize|].
    apply eq_None_not_Some. intros Hsome.
    match goal with Hnot : Some ip ∉ _ |- _ => apply Hnot end.
    by apply Hst.
Qed.

(** X11: each time the test of the loop is evaluated (before the first
    turn and after every turn), in every run, the keys of the store are
    the addresses [discover_single_device] was called for, and the store
    has as many records as there were calls: a turn that visits a device
    stores it, whether the connection succeeded or not. Inside a turn the
    record is stored in the statement after the call. *)
Theorem stored_is_visited (seeds : list record) (max : Z)
    (ign : option (list string)) (w0 : world) (st : frontier) (w : world) :
  run_state seeds max ign w0 st w →
  (∀ ip, is_Some (discovered_devices st !! ip) ↔
         Some ip ∈ get_ip <$> visited st)
  ∧ size (discovered_devices st) = List.length (visited st).
Proof.
  intros Hrun. split.
  - by eapply run_visited_stored.
  - by eapply run_size_visited.
Qed.

Lemma run_stored_entries seeds max ign w0 st w :
  run_state seeds max ign w0 st w →
  ∀ ip data, discovered_devices st !! ip = Some data →
    data !! "ip" = Some (VStr ip)
    ∧ (∃ ts, data !! "discovered_at" = Some (VStr ts))
    ∧ dom data ⊆ device_keys
    ∧ (∀ k, k ∈ ["hardware"; "version"; "hostname"] →
         ∃ o : option string, data !! k = VStr <$> o).
Proof.
  apply (run_state_invariant
    (λ st, ∀ ip data, discovered_devices st !! ip = Some data →
       data !! "ip" = Some (VStr ip)
       ∧ (∃ ts, data !! "discovered_at" = Some (VStr ts))
       ∧ dom data ⊆ device_keys
       ∧ (∀ k, k ∈ ["hardware"; "version"; "hostname"] →
            ∃ o : option string, data !! k = VStr <$> o))).
  - intros ip data. simpl. by rewrite lookup_empty.
  - intros st0 w1 st' w' Hst _ Hturn. turn_cases Hturn; [done..|].
    intros ip' data'. rewrite lookup_insert. case_decide; [|apply Hst].
    intros [= <-]. subst ip'.
    destruct (discover_single_device_entries device_params w1)
      as (Hip & Hts & Hdom & Hstr).
    match goal with Hd : discover_single_device _ _ = _ |- _ =>
      rewrite Hd in Hip, Hts, Hdom, Hstr end.
    simpl in *.
    match goal with Hg : get_ip _ = Some ip |- _ =>
      unfold get_ip in Hg; rewrite Hg in Hip end.
    split_and!; [done|by eexists|done..].
Qed.

(** X12: in every state of every run, a record of the store has its key
    under ['ip'] and a time under ['discovered_at'], and no key outside
    the eight of [device_keys]. *)
Theorem stored_record_carries_its_key (seeds : list record) (max : Z)
    (ign : option (list string)) (w0 : world) (st : frontier) (w : world)
    (ip : string) (data : device_data) :
  run_state seeds max ign w0 st w →
  discovered_devices st !! ip = Some data →
  data !! "ip" = Some (VStr ip)
  ∧ (∃ ts, data !! "discovered_at" = Some (VStr ts))
  ∧ dom data ⊆ device_keys.
Proof.
  intros Hrun Hdata.
  destruct (run_stored_entries _ _ _ _ _ _ Hrun ip data Hdata)
    as (? & ? & ? & _).
  by split_and!.
Qed.

(** X13: when the loop ends, the queue is empty or the store has reached
    the cap; with entries left in the queue and a cap that is not
    negative, the store holds exactly [max_devices] records. *)
Theorem run_ends_at_cap_or_empty_queue (seeds : list record) (max : Z)
    (ign : option (list string)) (w0 : world) (fuel : nat) (st : frontier)
    (w : world) :
  discover_loop fuel max (ignored_networks_of ign) (initial seeds) w0
    = Some (st, w) →
  (discovery_queue st = []
   ∨ (max ≤ Z.of_nat (size (discovered_devices st)))%Z)
  ∧ (discovery_queue st ≠ [] → (0 ≤ max)%Z →
     Z.of_nat (size (discovered_devices st)) = max).
Proof.
  intros Hloop.
  destruct (discover_loop_run_state seeds max ign w0 fuel _ _ _ _
              (run_start _ _ _ _) Hloop) as [Hrun Htest].
  pose proof (run_size _ _ _ _ _ _ Hrun) as Hsize.
  unfold loop_test in Htest.
  destruct (discovery_queue st) as [|q queue]; [by split; [left|]|].
  apply bool_decide_eq_false in Htest. split; [right|intros _ ?]; lia.
Qed.

(** X14: with no seed, or with a cap of zero or less, the run returns the
    empty store at once: no session is opened and the world is as it
    was. *)
Theorem nothing_to_visit (seeds : list record) (max : Z)
    (ign : option (list string)) (w0 : world) (fuel : nat) :
  seeds = [] ∨ (max ≤ 0)%Z →
  discover_network fuel seeds max ign w0 = Some (∅, w0).
Proof.
  intros Hnone. unfold discover_network.
  assert (loop_test max (initial seeds) = false) as Htest.
  { unfold loop_test. simpl. destruct Hnone as [->|?]; [done|].
    destruct seeds; [done|]. apply bool_decide_eq_false.
    rewrite map_size_empty. lia. }
  destruct fuel; simpl; by rewrite Htest.
Qed.

End MoreNetworkFacts.

Section FrontierFacts.
Context `{PyIpaddress} `{PyRe} `{Netmiko}.

(** An address that is attempted or pending stays so over a turn. *)
Lemma turn_pending nets st w st' w' (a : option string) :
  turn nets st w st' w' →
  a ∈ attempted_ips st ∨ a ∈ get_ip <$> discovery_queue st →
  a ∈ attempted_ips st' ∨ a ∈ get_ip <$> discovery_queue st'.
Proof.
  intros Hturn; turn_cases Hturn; rewrite elem_of_cons.
  - intros [?|[->|?]]; [by left|by left|by right].
  - intros [?|[->|?]]; [left|left|by right].
    + by apply elem_of_union_r.
    + by apply elem_of_union_l, elem_of_singleton.
  - destruct (queue_after_extends nets device_params
                ({[Some ip]} ∪ attempted) data queue) as (added & ->).
    rewrite fmap_app, elem_of_app.
    intros [?|[->|?]]; [left|left|by right; left].
    + by apply elem_of_union_r.
    + by apply elem_of_union_l, elem_of_singleton.
Qed.

(** After a pass over the neighbors, every address of the list that
    parses and is not ignored is attempted or in the queue. *)
Lemma enqueue_neighbors_covers nets params attempted neighbors :
  ∀ queue n a addr,
    n ∈ neighbors → get_ip n = Some a → a ≠ "" →
    ip_address a = Some addr → in_ignored nets addr = false →
    Some a ∈ attempted
    ∨ Some a ∈ get_ip <$>
        enqueue_neighbors nets params attempted neighbors queue.
Proof.
  induction neighbors as [|n0 ns IH]; intros queue n a addr Hin Hip Ha Haddr
    Hign; [by apply elem_of_nil in Hin|].
  assert (∀ q0, Some a ∈ get_ip <$> q0 →
    Some a ∈ get_ip <$> enqueue_neighbors nets params attempted ns q0)
    as Hmono.
  { intros q0 Hq0.
    destruct (enqueue_neighbors_spec nets params attempted ns q0)
      as (added & -> & _).
    rewrite fmap_app, elem_of_app. by left. }
  apply elem_of_cons in Hin as [<-|Hin].
  - simpl. rewrite Hip, (truthy_nonempty a Ha). simpl.
    destruct (decide (Some a ∈ attempted)) as [?|Hatt]; [by left|right].
    rewrite (bool_decide_eq_true_2 _ Hatt). simpl.
    destruct (decide (Some a ∈ get_ip <$> queue)) as [Hq|Hq].
    + rewrite bool_decide_eq_false_2 by (intros Hx; by apply Hx).
      by apply Hmono.
    + rewrite (bool_decide_eq_true_2 _ Hq), Haddr, Hign.
      apply Hmono. rewrite fmap_app, elem_of_app. right.
      simpl. rewrite get_ip_insert. by left.
  - simpl. destruct (get_ip n0) as [s|]; [|by eapply IH].
    destruct (_ && _ && _); [|by eapply IH].
    destruct (ip_address s) as [a0|]; [|by eapply IH].
    destruct (in_ignored nets a0); by eapply IH.
Qed.

(** Where the entries of the queue after a pass come from. *)
Lemma enqueue_neighbors_elem nets params attempted neighbors : ∀ queue q,
  q ∈ enqueue_neighbors nets params attempted neighbors queue →
  q ∈ queue
  ∨ ∃ a addr, q = <["ip" := a]> params ∧ a ≠ ""
              ∧ ip_address a = Some addr ∧ in_ignored nets addr = false.
Proof.
  induction neighbors as [|n ns IH]; intros queue q; simpl; [by left|].
  destruct (get_ip n) as [s|]; [|apply IH].
  destruct (Py.truthy s && _ && _) eqn:Hc; [|apply IH].
  destruct (ip_address s) as [addr|] eqn:Haddr; [|apply IH].
  destruct (in_ignored nets addr) eqn:Hign; [apply IH|].
  intros Hq.
  apply IH in Hq as [[?|Hq%list_elem_of_singleton]%elem_of_app|?];
    [by left|subst q|by right].
  right. exists s, addr. split_and!; [done| |done..].
  apply andb_true_iff in Hc as [[Ht _]%andb_true_iff _]. by intros ->.
Qed.

Lemma queue_after_elem nets params attempted data queue q :
  q ∈ queue_after nets params attempted data queue →
  q ∈ queue
  ∨ ∃ a addr, q = <["ip" := a]> params ∧ a ≠ ""
              ∧ ip_address a = Some addr ∧ in_ignored nets addr = false.
Proof.
  unfold queue_after.
  destruct (data !! "neighbors") as [[|neighbors| |]|]; try by left.
  apply enqueue_neighbors_elem.
Qed.

Lemma run_seeds_pending seeds max ign w0 st w :
  run_state seeds max ign w0 st w →
  ∀ s, s ∈ seeds →
    get_ip s ∈ attempted_ips st ∨ get_ip s ∈ get_ip <$> discovery_queue st.
Proof.
  apply (run_state_invariant
    (λ st, ∀ s, s ∈ seeds →
       get_ip s ∈ attempted_ips st
       ∨ get_ip s ∈ get_ip <$> discovery_queue st)).
  - intros s Hs. right. simpl. apply list_elem_of_fmap. by exists s.
  - intros st0 w1 st' w' Hst _ Hturn s Hs.
    eapply turn_pending; [done|]. by apply Hst.
Qed.

(** X15: each time the test of the loop is evaluated (before the first
    turn and after every turn), in every run, the address of every seed is
    in [attempted] or is the address of an entry of the queue: no turn
    loses a seed. Inside a turn the entry that was popped is out of the
    queue until its address is added to [attempted]. *)
Theorem seeds_are_attempted_or_pending (seeds : list record) (max : Z)
    (ign : option (list string)) (w0 : world) (st : frontier) (w : world)
    (s : record) :
  run_state seeds max ign w0 st w →
  s ∈ seeds →
  get_ip s ∈ attempted_ips st ∨ get_ip s ∈ get_ip <$> discovery_queue st.
Proof. intros Hrun. by apply (run_seeds_pending _ _ _ _ _ _ Hrun). Qed.

Lemma run_neighbors_pending seeds max ign w0 st w :
  run_state seeds max ign w0 st w →
  ∀ ip data neighbors n a addr,
    discovered_devices st !! ip = Some data →
    data !! "neighbors" = Some (VNeighbors neighbors) →
    n ∈ neighbors → get_ip n = Some a → a ≠ "" →
    ip_address a = Some addr →
    in_ignored (ignored_networks_of ign) addr = false →
    Some a ∈ attempted_ips st ∨ Some a ∈ get_ip <$> discovery_queue st.
Proof.
  apply (run_state_invariant
    (λ st, ∀ ip data neighbors n a addr,
       discovered_devices st !! ip = Some data →
       data !! "neighbors" = Some (VNeighbors neighbors) →
       n ∈ neighbors → get_ip n = Some a → a ≠ "" →
       ip_address a = Some addr →
       in_ignored (ignored_networks_of ign) addr = false →
       Some a ∈ attempted_ips st
       ∨ Some a ∈ get_ip <$> discovery_queue st)).
  - intros ip data ? ? ? ?. simpl. by rewrite lookup_empty.
  - intros st0 w1 st' w' Hst _ Hturn ip' data' ns n a addr
      Hdata Hns Hn Hip Ha Haddr Hign.
    pose proof Hturn as Hturn'. turn_cases Hturn.
    + apply (turn_pending _ _ _ _ _ _ Hturn'). by eapply Hst.
    + apply (turn_pending _ _ _ _ _ _ Hturn'). by eapply Hst.
    + rewrite lookup_insert in Hdata. case_decide.
      * injection Hdata as <-. unfold queue_after. rewrite Hns.
        by eapply enqueue_neighbors_covers.
      * apply (turn_pending _ _ _ _ _ _ Hturn'). by eapply Hst.
Qed.

(** X16: each time the test of the loop is evaluated (before the first
    turn and after every turn), in every run, for every stored device and
    every neighbor record of it whose address is not empty, parses and is
    in no ignored network, that address is in [attempted] or is the
    address of an entry of the queue: what a visit learns of is not
    dropped by the turn. Inside a turn the record is stored before its
    neighbors are put in the queue. *)
Theorem neighbors_are_attempted_or_pending (seeds : list record) (max : Z)
    (ign : option (list string)) (w0 : world) (st : frontier) (w : world)
    (ip : string) (data : device_data) (neighbors : list record)
    (n : record) (a : string) (addr : ip_addr) :
  run_state seeds max ign w0 st w →
  discovered_devices st !! ip = Some data →
  data !! "neighbors" = Some (VNeighbors neighbors) →
  n ∈ neighbors → get_ip n = Some a → a ≠ "" →
  ip_address a = Some addr →
  in_ignored (ignored_networks_of ign) addr = false →
  Some a ∈ attempted_ips st ∨ Some a ∈ get_ip <$> discovery_queue st.
Proof. intros Hrun. by apply (run_neighbors_pending _ _ _ _ _ _ Hrun). Qed.

(** X17: when the loop ends with the store below the cap, the queue is
    empty, every seed address is in [attempted], and so is every address
    of a neighbor record of a stored device that is not empty, parses and
    is in no ignored network: below the cap the traversal is complete. *)
Theorem below_the_cap_everything_was_attempted (seeds : list record)
    (max : Z) (ign : option (list string)) (w0 : world) (fuel : nat)
    (st : frontier) (w : world) :
  discover_loop fuel max (ignored_networks_of ign) (initial seeds) w0
    = Some (st, w) →
  (Z.of_nat (size (discovered_devices st)) < max)%Z →
  discovery_queue st = []
  ∧ (∀ s, s ∈ seeds → get_ip s ∈ attempted_ips st)
  ∧ (∀ ip data neighbors n a addr,
       discovered_devices st !! ip = Some data →
       data !! "neighbors" = Some (VNeighbors neighbors) →
       n ∈ neighbors → get_ip n = Some a → a ≠ "" →
       ip_address a = Some addr →
       in_ignored (ignored_networks_of ign) addr = false →
       Some a ∈ attempted_ips st).
Proof.
  intros Hloop Hbelow.
  destruct (discover_loop_run_state seeds max ign w0 fuel _ _ _ _
              (run_start _ _ _ _) Hloop) as [Hrun Htest].
  assert (discovery_queue st = []) as Hq.
  { unfold loop_test in Htest. destruct (discovery_queue st); [done|].
    by apply bool_decide_eq_false in Htest. }
  split_and!; [done| |].
  - intros s Hs.
    destruct (run_seeds_pending _ _ _ _ _ _ Hrun s Hs) as [?|Hp]; [done|].
    rewrite Hq in Hp. by apply elem_of_nil in Hp.
  - intros ip data ns n a addr Hdata Hns Hn Hip Ha Haddr Hign.
    destruct (run_neighbors_pending _ _ _ _ _ _ Hrun _ _ _ _ _ _
                Hdata Hns Hn Hip Ha Haddr Hign) as [?|Hp]; [done|].
    rewrite Hq in Hp. by apply elem_of_nil in Hp.
Qed.

Lemma run_credentials seeds max ign w0 st w :
  run_state seeds max ign w0 st w →
  ∀ q, q ∈ discovery_queue st ∨ q ∈ visited st →
    ∃ s, s ∈ seeds ∧ ∀ k, k ≠ "ip" → q !! k = s !! k.
Proof.
  apply (run_state_invariant
    (λ st, ∀ q, q ∈ discovery_queue st ∨ q ∈ visited st →
       ∃ s, s ∈ seeds ∧ ∀ k, k ≠ "ip" → q !! k = s !! k)).
  - intros q [Hq|Hq]; [|by apply elem_of_nil in Hq]. by exists q.
  - intros st0 w1 st' w' Hst _ Hturn q Hq. turn_cases Hturn.
    + apply Hst. destruct Hq as [?|?]; [left; by right|by right].
    + apply Hst. destruct Hq as [?|?]; [left; by right|by right].
    + destruct Hq as [Hq|[->|Hq]%elem_of_cons].
      * apply queue_after_elem in Hq as [Hq|(a' & _ & -> & _)].
        { apply Hst. left. by right. }
        destruct (Hst device_params) as (s & Hs & Hk); [left; by left|].
        exists s. split; [done|]. intros k Hne.
        rewrite lookup_insert_ne by done. by apply Hk.
      * apply Hst. left. by left.
      * apply Hst. by right.
Qed.

(** X18: in every state of every run, every entry of the queue and every
    set of parameters a device was visited with agrees with one of the
    seeds on every key but ['ip']: the credentials a neighbor is visited
    with are those of a seed, handed down from parent to neighbor. *)
Theorem credentials_come_from_a_seed (seeds : list record) (max : Z)
    (ign : option (list string)) (w0 : world) (st : frontier) (w : world)
    (q : record) :
  run_state seeds max ign w0 st w →
  q ∈ discovery_queue st ∨ q ∈ visited st →
  ∃ s, s ∈ seeds ∧ ∀ k, k ≠ "ip" → q !! k = s !! k.
Proof. intros Hrun. by apply (run_credentials _ _ _ _ _ _ Hrun). Qed.

Lemma run_queue_valid seeds max ign w0 st w :
  run_state seeds max ign w0 st w →
  ∀ q, q ∈ discovery_queue st →
    q ∈ seeds
    ∨ ∃ a addr, get_ip q = Some a ∧ a ≠ "" ∧ ip_address a = Some addr
                ∧ in_ignored (ignored_networks_of ign) addr = false.
Proof.
  apply (run_state_invariant
    (λ st, ∀ q, q ∈ discovery_queue st →
       q ∈ seeds
       ∨ ∃ a addr, get_ip q = Some a ∧ a ≠ "" ∧ ip_address a = Some addr
                   ∧ in_ignored (ignored_networks_of ign) addr = false)).
  - intros q Hq. by left.
  - intros st0 w1 st' w' Hst _ Hturn q Hq. turn_cases Hturn.
    + apply Hst. by right.
    + apply Hst. by right.
    + apply queue_after_elem in Hq as [Hq|(a' & addr & -> & ? & ? & ?)].
      * apply Hst. by right.
      * right. exists a', addr. by rewrite get_ip_insert.
Qed.

(** X19: in every state of every run, an entry of the queue is a seed or
    has an address that is not empty, parses and is in no ignored network:
    a neighbor is checked before it is put in the queue, so only a seed
    can be skipped as invalid or ignored when its turn comes. *)
Theorem queued_neighbors_are_checked (seeds : list record) (max : Z)
    (ign : option (list string)) (w0 : world) (st : frontier) (w : world)
    (q : record) :
  run_state seeds max ign w0 st w →
  q ∈ discovery_queue st →
  q ∈ seeds
  ∨ ∃ a addr, get_ip q = Some a ∧ a ≠ "" ∧ ip_address a = Some addr
              ∧ in_ignored (ignored_networks_of ign) addr = false.
Proof. intros Hrun. by apply (run_queue_valid _ _ _ _ _ _ Hrun). Qed.

End FrontierFacts.

(** *** The traversal on the small network *)

Lemma is_Some_default {A} (o : option A) (d : A) :
  is_Some o → o = Some (default d o).
Proof. by intros [x ->]. Qed.

Lemma neighbors_of_lookup (d : device_data) (n : nat) :
  List.length (neighbors_of d) = S n →
  d !! "neighbors" = Some (VNeighbors (neighbors_of d)).
Proof.
  unfold neighbors_of. by destruct (d !! "neighbors") as [[| | |]|].
Qed.

(** The state after the first turn is a state of the run. *)
Lemma lab_first_turn_run :
  @run_state IPv4.ipaddress Backtrack.re Example.lab Lab.seeds 5 None 0
    Lab.first_turn.1 Lab.first_turn.2.
Proof.
  eapply run_turn; [apply run_start|vm_compute; reflexivity|].
  apply surjective_pairing.
Qed.

(** After the first turn 10.0.0.1 is stored, its two neighbors wait. *)
Example lab_first_turn_state :
  (elements (dom (discovered_devices Lab.first_turn.1)),
   get_ip <$> discovery_queue Lab.first_turn.1,
   elements (attempted_ips Lab.first_turn.1))
  = (["10.0.0.1"], [Some "10.0.0.2"; Some "10.0.0.3"], [Some "10.0.0.1"]).
Proof. vm_compute; reflexivity. Qed.

(** The record of 10.0.0.1 after the first turn. *)
Lemma lab_first_turn_stored :
  discovered_devices Lab.first_turn.1 !! "10.0.0.1"
  = Some (default ∅ (discovered_devices Lab.first_turn.1 !! "10.0.0.1")).
Proof. apply is_Some_default. vm_decide. Qed.

(** The end of the loop of a run from the seed, by the cap. *)
Lemma lab_loop_ends (max : Z) :
  is_Some (Example.loop 10 Lab.seeds max None) →
  Example.loop 10 Lab.seeds max None
  = Some ((default (initial [], 0) (Example.loop 10 Lab.seeds max None)).1,
          (default (initial [], 0) (Example.loop 10 Lab.seeds max None)).2).
Proof. intros Hsome. rewrite <- surjective_pairing. by apply is_Some_default. Qed.

Lemma stored_addresses_are_attempted_witness :
  Some "10.0.0.1" ∈ attempted_ips Lab.first_turn.1.
Proof.
  apply (@stored_addresses_are_attempted IPv4.ipaddress Backtrack.re
           Example.lab Lab.seeds 5 None 0 _ _ "10.0.0.1" lab_first_turn_run).
  vm_decide.
Defined.

(** The second turn, the visit of 10.0.0.2: the record of 10.0.0.1 is in
    the store before it, and stays. *)
Lemma a_turn_keeps_what_is_stored_witness :
  is_Some (discovered_devices Lab.first_turn.1 !! "10.0.0.1")
  ∧ Some "10.0.0.1" ∈ attempted_ips Lab.first_turn.1
  ∧ discovered_devices Lab.first_turn.1
      ⊆ discovered_devices Lab.second_turn.1
  ∧ attempted_ips Lab.first_turn.1 ⊆ attempted_ips Lab.second_turn.1.
Proof.
  split; [vm_decide|]. split; [vm_decide|].
  apply (@a_turn_keeps_what_is_stored IPv4.ipaddress Backtrack.re
           Example.lab Lab.seeds 5 None 0 Lab.first_turn.1
           Lab.first_turn.2 Lab.second_turn.1 Lab.second_turn.2).
  - apply lab_first_turn_run.
  - vm_compute; reflexivity.
  - apply surjective_pairing.
Defined.

Lemma stored_is_visited_witness :
  (∀ ip, is_Some (discovered_devices Lab.first_turn.1 !! ip) ↔
         Some ip ∈ get_ip <$> visited Lab.first_turn.1)
  ∧ size (discovered_devices Lab.first_turn.1)
      = List.length (visited Lab.first_turn.1).
Proof.
  apply (@stored_is_visited IPv4.ipaddress Backtrack.re Example.lab
           Lab.seeds 5 None 0 _ _ lab_first_turn_run).
Defined.

Lemma stored_record_carries_its_key_witness :
  ∃ data,
    discovered_devices Lab.first_turn.1 !! "10.0.0.1" = Some data
    ∧ data !! "ip" = Some (VStr "10.0.0.1")
    ∧ (∃ ts, data !! "discovered_at" = Some (VStr ts))
    ∧ dom data ⊆ device_keys.
Proof.
  eexists. split; [apply lab_first_turn_stored|].
  apply (@stored_record_carries_its_key IPv4.ipaddress Backtrack.re
           Example.lab Lab.seeds 5 None 0 _ _ "10.0.0.1" _
           lab_first_turn_run lab_first_turn_stored).
Defined.

(** A run with a cap of 1: it ends with the two neighbors in the queue. *)
Lemma run_ends_at_cap_or_empty_queue_witness :
  ∃ st w,
    Example.loop 10 Lab.seeds 1 None = Some (st, w)
    ∧ (discovery_queue st = []
       ∨ (1 ≤ Z.of_nat (size (discovered_devices st)))%Z)
    ∧ (discovery_queue st ≠ [] → (0 ≤ 1)%Z →
       Z.of_nat (size (discovered_devices st)) = 1%Z).
Proof.
  assert (is_Some (Example.loop 10 Lab.seeds 1 None)) as Hloop by vm_decide.
  apply lab_loop_ends in Hloop.
  eexists _, _. split; [exact Hloop|].
  apply (@run_ends_at_cap_or_empty_queue IPv4.ipaddress Backtrack.re
           Example.lab Lab.seeds 1 None 0 10 _ _ Hloop).
Defined.

Lemma nothing_to_visit_witness :
  Example.run 5 Lab.seeds 0 None = Some (∅, 0).
Proof.
  apply (@nothing_to_visit IPv4.ipaddress Backtrack.re Example.lab
           Lab.seeds 0 None 0 5).
  right. lia.
Defined.

Lemma seeds_are_attempted_or_pending_witness :
  get_ip (Example.seed "10.0.0.1") ∈ attempted_ips Lab.first_turn.1
  ∨ get_ip (Example.seed "10.0.0.1")
      ∈ get_ip <$> discovery_queue Lab.first_turn.1.
Proof.
  apply (@seeds_are_attempted_or_pending IPv4.ipaddress Backtrack.re
           Example.lab Lab.seeds 5 None 0 _ _ (Example.seed "10.0.0.1")
           lab_first_turn_run).
  apply list_elem_of_here.
Defined.

(** The device at 10.0.0.1 announces 10.0.0.3 by LLDP: the third record
    of its neighbors. *)
Lemma neighbors_are_attempted_or_pending_witness :
  Some "10.0.0.3" ∈ attempted_ips Lab.first_turn.1
  ∨ Some "10.0.0.3" ∈ get_ip <$> discovery_queue Lab.first_turn.1.
Proof.
  apply (@neighbors_are_attempted_or_pending IPv4.ipaddress Backtrack.re
           Example.lab Lab.seeds 5 None 0 _ _ "10.0.0.1"
           (default ∅ (discovered_devices Lab.first_turn.1 !! "10.0.0.1"))
           (neighbors_of
              (default ∅ (discovered_devices Lab.first_turn.1 !! "10.0.0.1")))
           (default ∅
              (neighbors_of
                 (default ∅
                    (discovered_devices Lab.first_turn.1 !! "10.0.0.1"))
               !! 2))
           "10.0.0.3" 167772163%Z lab_first_turn_run lab_first_turn_stored).
  - apply (neighbors_of_lookup _ 2). vm_compute; reflexivity.
  - apply (list_elem_of_lookup_2 _ 2), is_Some_default. vm_decide.
  - vm_compute; reflexivity.
  - done.
  - vm_compute; reflexivity.
  - reflexivity.
Defined.

(** The run with a cap of 5 ends with three devices stored. *)
Lemma below_the_cap_everything_was_attempted_witness :
  ∃ st w,
    Example.loop 10 Lab.seeds 5 None = Some (st, w)
    ∧ discovery_queue st = []
    ∧ ∀ s, s ∈ Lab.seeds → get_ip s ∈ attempted_ips st.
Proof.
  assert (is_Some (Example.loop 10 Lab.seeds 5 None)) as Hloop by vm_decide.
  apply lab_loop_ends in Hloop.
  eexists _, _. split; [exact Hloop|].
  destruct (@below_the_cap_everything_was_attempted IPv4.ipaddress
              Backtrack.re Example.lab Lab.seeds 5 None 0 10 _ _ Hloop)
    as (Hq & Hseeds & _); [vm_compute; reflexivity|].
  by split.
Defined.

(** The entry for 10.0.0.2 in the queue has the credentials of the seed. *)
Lemma credentials_come_from_a_seed_witness :
  ∃ s, s ∈ Lab.seeds
       ∧ ∀ k, k ≠ "ip" →
           (<["ip" := "10.0.0.2"]> (Example.seed "10.0.0.1") : record) !! k
             = s !! k.
Proof.
  apply (@credentials_come_from_a_seed IPv4.ipaddress Backtrack.re
           Example.lab Lab.seeds 5 None 0 _ _ _ lab_first_turn_run).
  left. vm_decide.
Defined.

Lemma queued_neighbors_are_checked_witness :
  (<["ip" := "10.0.0.2"]> (Example.seed "10.0.0.1") : record) ∈ Lab.seeds
  ∨ ∃ a addr,
      get_ip (<["ip" := "10.0.0.2"]> (Example.seed "10.0.0.1")) = Some a
      ∧ a ≠ "" ∧ IPv4.address a = Some addr
      ∧ @in_ignored IPv4.ipaddress [] addr = false.
Proof.
  apply (@queued_neighbors_are_checked IPv4.ipaddress Backtrack.re
           Example.lab Lab.seeds 5 None 0 _ _ _ lab_first_turn_run).
  vm_decide.
Defined.

(** A CDP record for 10.0.0.2 and two LLDP records for 10.0.0.3: the first
    LLDP one is kept. *)
Lemma merge_keeps_the_first_lldp_record_witness :
  with_ip "10.0.0.3"
    (merge_neighbors [Example.link1]
       [Example.by_lldp; <["ip" := "10.0.0.3"]> Example.by_lldp;
        <["ip" := "10.0.0.3"]> Example.link2])
  = [<["ip" := "10.0.0.3"]> Example.by_lldp].
Proof.
  apply (merge_keeps_the_first_lldp_record [Example.link1] _
           [Example.by_lldp] [<["ip" := "10.0.0.3"]> Example.link2]
           (<["ip" := "10.0.0.3"]> Example.by_lldp) "10.0.0.3").
  - reflexivity.
  - vm_compute; reflexivity.
  - vm_decide.
  - vm_decide.
Defined.

(** ** What is done with the store *)

(** *** [main]: the store that is saved *)

Lemma clean_data_delete (data : device_data) :
  clean_data data = delete "raw_output" data.
Proof.
  unfold clean_data. case_decide as Hraw; [done|].
  symmetry. apply delete_id. by apply eq_None_not_Some.
Qed.

Lemma clean_loop_lookup (items : list (string * device_data)) :
  ∀ (acc : gmap string device_data) ip,
    NoDup items.*1 →
    clean_loop items acc !! ip
      = match (list_to_map items : gmap string device_data) !! ip with
        | Some data => Some (clean_data data)
        | None => acc !! ip
        end.
Proof.
  induction items as [|[k d] items IH]; intros acc ip Hnodup; simpl.
  - by rewrite lookup_empty.
  - apply NoDup_cons in Hnodup as [Hk Hnodup].
    rewrite IH by done. destruct (decide (k = ip)) as [<-|Hip].
    + rewrite (not_elem_of_list_to_map_1 _ k) by done.
      by rewrite !lookup_insert_eq.
    + by rewrite !lookup_insert_ne by done.
Qed.

(** X20: the store [main] saves has the devices of the store it was given,
    each record without its ['raw_output'] and otherwise as it was. *)
Theorem saved_store_has_no_raw_output (devices : gmap string device_data) :
  clean_devices devices = delete "raw_output" <$> devices.
Proof.
  apply map_eq. intros ip. unfold clean_devices.
  rewrite clean_loop_lookup by apply NoDup_fst_map_to_list.
  rewrite list_to_map_to_list, lookup_fmap, lookup_empty.
  destruct (devices !! ip) as [data|]; simpl; [|done].
  by rewrite clean_data_delete.
Qed.

(** *** [WebInterface._get_device_types] *)

Lemma device_types_loop_unknown (devices : list device_data) :
  ∀ device_types : gset string,
    (∀ d, d ∈ devices → d !! "device_type" = None) →
    device_types_loop devices device_types
      = Some (match devices with
              | [] => device_types
              | _ => {["unknown"]} ∪ device_types
              end).
Proof.
  induction devices as [|d devices IH]; intros device_types Hnone; [done|].
  simpl. rewrite (Hnone d) by apply list_elem_of_here. simpl.
  rewrite IH by (intros d' Hd'; apply Hnone; by apply list_elem_of_further).
  f_equal. destruct devices; [done|]. set_solver.
Qed.

(** *** [DiagramGenerator._determine_device_type] *)

Lemma startswith_rtr (s : string) :
  PyStr.startswith "rtr" s = true → PyStr.startswith "rt" s = true.
Proof.
  destruct s as [|a [|b s]]; simpl; try done.
  rewrite !andb_true_iff. tauto.
Qed.

Lemma contains_rtr (s : string) :
  PyStr.contains "rtr" s = true → PyStr.contains "rt" s = true.
Proof.
  induction s as [|c s IH].
  - done.
  - change (PyStr.contains ?p (String c s))
      with (PyStr.startswith p (String c s) || PyStr.contains p s).
    intros [Hs|Hc]%orb_prop; apply orb_true_intro.
    + left. by apply startswith_rtr.
    + right. by apply IH.
Qed.

(** X21: in the test ['rt' in hostname or 'rtr' in hostname] the second part
    never decides: a name with "rtr" in it has "rt" in it. *)
Theorem rtr_test_never_decides (hostname : string) :
  PyStr.contains "rt" hostname || PyStr.contains "rtr" hostname
  = PyStr.contains "rt" hostname.
Proof.
  destruct (PyStr.contains "rtr" hostname) eqn:Hrtr.
  - by rewrite (contains_rtr _ Hrtr).
  - apply orb_false_r.
Qed.

Lemma _determine_device_type_strings (d : device_data) :
  (∀ k, k ∈ ["hardware"; "hostname"] →
     ∃ o : option string, d !! k = VStr <$> o) →
  ∃ t, _determine_device_type d = Some t
       ∧ t ∈ ["switch"; "router"; "firewall"].
Proof.
  intros Hstr. unfold _determine_device_type, get_lower.
  destruct (Hstr "hardware") as [o1 ->]; [set_solver|].
  destruct (Hstr "hostname") as [o2 ->]; [set_solver|].
  destruct o1, o2; simpl; eexists; (split; [reflexivity|]);
    repeat case_match; set_solver.
Qed.

Lemma _determine_device_type_bare (d : device_data) :
  d !! "hardware" = None → d !! "hostname" = None →
  _determine_device_type d = Some "switch".
Proof.
  intros Hhw Hhn. unfold _determine_device_type, get_lower.
  by rewrite Hhw, Hhn.
Qed.

Section StoreUses.
Context `{PyIpaddress} `{PyRe} `{Netmiko}.

(** X22: no record of a run has a ['device_type'], so for the store of a
    run, as [main] gives it to the web interface, [_get_device_types]
    returns no type when the store is empty and the one type "unknown"
    otherwise. *)
Theorem run_store_has_only_unknown_types (seeds : list record) (max : Z)
    (ign : option (list string)) (w0 : world) (st : frontier) (w : world) :
  run_state seeds max ign w0 st w →
  _get_device_types (discovered_devices st)
  = Some (if decide (discovered_devices st = ∅) then ∅ else {["unknown"]}).
Proof.
  intros Hrun. unfold _get_device_types.
  rewrite device_types_loop_unknown.
  - f_equal. case_decide as Hempty.
    + by rewrite Hempty, map_to_list_empty.
    + destruct (map_to_list (discovered_devices st)) as [|x l] eqn:Hl.
      * by apply map_to_list_empty_iff in Hl.
      * simpl. set_solver.
  - intros d [[ip d'] [-> Hd]]%list_elem_of_fmap. simpl.
    apply elem_of_map_to_list in Hd.
    destruct (run_stored_entries _ _ _ _ _ _ Hrun ip d' Hd)
      as (_ & _ & Hdom & _).
    apply not_elem_of_dom. intros Hin%Hdom. revert Hin.
    unfold device_keys. set_solver.
Qed.

(** X23: for every record of the store of a run [_determine_device_type]
    returns, without an exception, one of "switch", "router" and
    "firewall". *)
Theorem stored_device_has_a_type (seeds : list record) (max : Z)
    (ign : option (list string)) (w0 : world) (st : frontier) (w : world)
    (ip : string) (data : device_data) :
  run_state seeds max ign w0 st w →
  discovered_devices st !! ip = Some data →
  ∃ t, _determine_device_type data = Some t
       ∧ t ∈ ["switch"; "router"; "firewall"].
Proof.
  intros Hrun Hdata.
  destruct (run_stored_entries _ _ _ _ _ _ Hrun ip data Hdata)
    as (_ & _ & _ & Hstr).
  apply _determine_device_type_strings.
  intros k Hk. apply Hstr. set_solver.
Qed.

(** X24: the record of a device that could not be connected to has no
    hardware and no host name, and [_determine_device_type] calls it a
    "switch". *)
Theorem unreachable_device_is_a_switch (params : record) (w : world)
    (ts : string) (w1 : world) (e : string) (w2 : world) :
  now_isoformat w = (ts, w1) →
  ConnectHandler params w1 = (inr e, w2) →
  _determine_device_type (discover_single_device params w).1
  = Some "switch".
Proof.
  intros Hnow Hconnect.
  destruct (discover_single_device_record params w)
    as (ts' & w1' & Hnow' & [(e' & w2' & _ & ->)
         |(conn' & w2' & v & ns & results & Hc & _)]);
    rewrite Hnow in Hnow'; injection Hnow' as <- <-.
  - by apply _determine_device_type_bare.
  - by rewrite Hconnect in Hc.
Qed.

End StoreUses.

(** *** [DiagramGenerator.build_graph] *)

Lemma sorted_pair_comm (a b : string) :
  PyStr.sorted_pair a b = PyStr.sorted_pair b a.
Proof.
  unfold PyStr.sorted_pair.
  destruct (String.leb a b) eqn:Hab, (String.leb b a) eqn:Hba; try done.
  - by rewrite (String.leb_antisym a b Hab Hba).
  - destruct (String.leb_total a b); congruence.
Qed.

Lemma sorted_pair_inv (a b u v : string) :
  PyStr.sorted_pair a b = PyStr.sorted_pair u v →
  (a = u ∧ b = v) ∨ (a = v ∧ b = u).
Proof.
  unfold PyStr.sorted_pair.
  destruct (String.leb a b), (String.leb u v); intros [= -> ->]; tauto.
Qed.

(** The first loop: one call for each device, in the order of the items. *)
Lemma add_nodes_spec (items : list (string * device_data)) :
  ∀ nodes, add_nodes items = Some nodes →
    omap node_of nodes = items.*1
    ∧ omap connection_of nodes = []
    ∧ ∀ c, c ∈ nodes →
        ∃ ip d t, c = add_node ip (default (VStr ip) (d !! "hostname")) t d
                  ∧ (ip, d) ∈ items
                  ∧ _determine_device_type d = Some t.
Proof.
  induction items as [|[ip d] items IH]; intros nodes; simpl.
  - intros [= <-]. split_and!; [done..|]. by intros c ?%elem_of_nil.
  - destruct (_determine_device_type d) as [t|] eqn:Ht; [|done].
    destruct (add_nodes items) as [calls|]; [|done].
    intros [= <-]. destruct (IH calls eq_refl) as (Hn & Hc & Hcalls).
    split_and!; [simpl; f_equal; exact Hn|done|].
    intros c [->|Hin]%elem_of_cons.
    + exists ip, d, t. split_and!; [done|apply list_elem_of_here|done].
    + destruct (Hcalls c Hin) as (ip' & d' & t' & -> & Hitem & Ht').
      exists ip', d', t'. split_and!; [done| |done].
      by apply list_elem_of_further.
Qed.

(** The edge that a neighbor record gives. *)
Lemma neighbor_edges_spec (keys : list string) (u : string)
    (ns : list record) :
  ∀ calls (added : gset (string * string)),
  ∃ new,
    neighbor_edges keys u ns calls added
      = (calls ++ new, list_to_set (omap connection_of new) ∪ added)
    ∧ omap node_of new = []
    ∧ NoDup (omap connection_of new)
    ∧ (∀ c, c ∈ omap connection_of new → c ∉ added)
    ∧ (∀ c, c ∈ new →
         ∃ n v, n ∈ ns ∧ get_ip n = Some v ∧ v ≠ "" ∧ v ∈ keys
                ∧ c = add_edge u v (default "" (n !! "local_interface"))
                        (default "" (n !! "remote_interface")))
    ∧ (∀ n v, n ∈ ns → get_ip n = Some v → v ≠ "" → v ∈ keys →
         PyStr.sorted_pair u v
           ∈ list_to_set (omap connection_of new) ∪ added).
Proof.
  induction ns as [|n ns IH]; intros calls added.
  - exists []. simpl. rewrite app_nil_r.
    split_and!; [f_equal; set_solver|done|constructor|set_solver| |];
      intros; exfalso; by eapply not_elem_of_nil.
  - simpl. destruct (get_ip n) as [v|] eqn:Hv.
    + destruct (Py.truthy v && bool_decide (v ∈ keys)) eqn:Hok.
      * apply andb_prop in Hok as [Htruthy Hkey%bool_decide_eq_true].
        assert (v ≠ "") as Hne by (intros ->; done).
        case_decide as Hnew.
        -- destruct (IH (calls ++ [add_edge u v
                       (default "" (n !! "local_interface"))
                       (default "" (n !! "remote_interface"))])
                      ({[PyStr.sorted_pair u v]} ∪ added))
             as (new & -> & Hnodes & Hnodup & Hfresh & Hsound & Hcomplete).
           eexists (_ :: new). rewrite <- app_assoc. simpl.
           split_and!.
           ++ f_equal. set_solver.
           ++ done.
           ++ constructor; [|done]. intros Hin%Hfresh. set_solver.
           ++ intros c [->|Hin%Hfresh]%elem_of_cons; [done|set_solver].
           ++ intros c [->|Hin]%elem_of_cons.
              ** exists n, v. split_and!; [apply list_elem_of_here|done..].
              ** destruct (Hsound c Hin) as (n' & v' & ? & ? & ? & ? & ?).
                 exists n', v'. split_and!; [|done..].
                 by apply list_elem_of_further.
           ++ intros n' v' [->|Hin]%elem_of_cons Hv' Hne' Hkey'.
              ** rewrite Hv in Hv'. injection Hv' as <-. set_solver.
              ** specialize (Hcomplete n' v' Hin Hv' Hne' Hkey'). set_solver.
        -- destruct (IH calls added)
             as (new & -> & Hnodes & Hnodup & Hfresh & Hsound & Hcomplete).
           exists new. split_and!; [done..| |].
           ++ intros c Hin.
              destruct (Hsound c Hin) as (n' & v' & ? & ? & ? & ? & ?).
              exists n', v'. split_and!; [|done..].
              by apply list_elem_of_further.
           ++ intros n' v' [->|Hin]%elem_of_cons Hv' Hne' Hkey'.
              ** rewrite Hv in Hv'. injection Hv' as <-.
                 set_solver.
              ** by apply (Hcomplete n' v').
      * destruct (IH calls added)
          as (new & -> & Hnodes & Hnodup & Hfresh & Hsound & Hcomplete).
        exists new. split_and!; [done..| |].
        -- intros c Hin.
           destruct (Hsound c Hin) as (n' & v' & ? & ? & ? & ? & ?).
           exists n', v'. split_and!; [|done..].
           by apply list_elem_of_further.
        -- intros n' v' [->|Hin]%elem_of_cons Hv' Hne' Hkey'.
           ++ rewrite Hv in Hv'. injection Hv' as <-.
              rewrite (truthy_nonempty v Hne') in Hok.
              by rewrite (bool_decide_eq_true_2 _ Hkey') in Hok.
           ++ by apply (Hcomplete n' v').
    + destruct (IH calls added)
        as (new & -> & Hnodes & Hnodup & Hfresh & Hsound & Hcomplete).
      exists new. split_and!; [done..| |].
      * intros c Hin.
        destruct (Hsound c Hin) as (n' & v' & ? & ? & ? & ? & ?).
        exists n', v'. split_and!; [|done..].
        by apply list_elem_of_further.
      * intros n' v' [->|Hin]%elem_of_cons Hv' Hne' Hkey'.
        -- by rewrite Hv in Hv'.
        -- by apply (Hcomplete n' v').
Qed.

(** The second loop: the edges of all the devices. *)
Lemma device_edges_spec (keys : list string)
    (items : list (string * device_data)) :
  ∀ calls (added : gset (string * string)) edges,
  device_edges keys items calls added = Some edges →
  ∃ new,
    edges = calls ++ new
    ∧ omap node_of new = []
    ∧ NoDup (omap connection_of new)
    ∧ (∀ c, c ∈ omap connection_of new → c ∉ added)
    ∧ (∀ c, c ∈ new →
         ∃ u d ns n v,
           (u, d) ∈ items ∧ d !! "neighbors" = Some (VNeighbors ns)
           ∧ n ∈ ns ∧ get_ip n = Some v ∧ v ≠ "" ∧ v ∈ keys
           ∧ c = add_edge u v (default "" (n !! "local_interface"))
                   (default "" (n !! "remote_interface")))
    ∧ (∀ u d ns n v,
         (u, d) ∈ items → d !! "neighbors" = Some (VNeighbors ns) →
         n ∈ ns → get_ip n = Some v → v ≠ "" → v ∈ keys →
         PyStr.sorted_pair u v
           ∈ list_to_set (omap connection_of new) ∪ added).
Proof.
  induction items as [|[u d] items IH]; intros calls added edges; simpl.
  - intros [= <-]. exists []. rewrite app_nil_r.
    split_and!; [done|done|constructor|set_solver| |];
      intros; exfalso; by eapply not_elem_of_nil.
  - assert (∀ edges,
      device_edges keys items calls added = Some edges →
      (∀ ns, d !! "neighbors" ≠ Some (VNeighbors (ns))
             ∨ d !! "neighbors" = Some (VNeighbors [])) →
      ∃ new, edges = calls ++ new ∧ omap node_of new = []
        ∧ NoDup (omap connection_of new)
        ∧ (∀ c, c ∈ omap connection_of new → c ∉ added)
        ∧ (∀ c, c ∈ new →
             ∃ u0 d0 ns n v,
               (u0, d0) ∈ (u, d) :: items
               ∧ d0 !! "neighbors" = Some (VNeighbors ns)
               ∧ n ∈ ns ∧ get_ip n = Some v ∧ v ≠ "" ∧ v ∈ keys
               ∧ c = add_edge u0 v (default "" (n !! "local_interface"))
                       (default "" (n !! "remote_interface")))
        ∧ (∀ u0 d0 ns n v,
             (u0, d0) ∈ (u, d) :: items →
             d0 !! "neighbors" = Some (VNeighbors ns) →
             n ∈ ns → get_ip n = Some v → v ≠ "" → v ∈ keys →
             PyStr.sorted_pair u0 v
               ∈ list_to_set (omap connection_of new) ∪ added)) as Hskip.
    { intros edges' Hedges Hnone.
      destruct (IH calls added edges' Hedges)
        as (new & -> & Hnodes & Hnodup & Hfresh & Hsound & Hcomplete).
      exists new. split_and!; [done..| |].
      - intros c Hin.
        destruct (Hsound c Hin) as (u0 & d0 & ns & n & v & ? & ?).
        exists u0, d0, ns, n, v. split; [by apply list_elem_of_further|done].
      - intros u0 d0 ns n v [[= -> ->]|Hin]%elem_of_cons Hns Hn.
        + destruct (Hnone ns) as [?|Hnil]; [done|].
          rewrite Hns in Hnil. injection Hnil as ->.
          by apply elem_of_nil in Hn.
        + by apply (Hcomplete u0 d0 ns n v). }
    destruct (d !! "neighbors") as [[s|ns|m|m]|] eqn:Hd.
    + destruct (no_element (VStr s)); [|done].
      intros Hedges. apply Hskip; [done|]. intros ns. by left.
    + destruct (neighbor_edges_spec keys u ns calls added)
        as (new1 & -> & Hnodes1 & Hnodup1 & Hfresh1 & Hsound1 & Hcomplete1).
      intros Hedges.
      destruct (IH _ _ _ Hedges)
        as (new2 & -> & Hnodes2 & Hnodup2 & Hfresh2 & Hsound2 & Hcomplete2).
      exists (new1 ++ new2). rewrite <- app_assoc, !omap_app.
      split_and!.
      * done.
      * by rewrite Hnodes1, Hnodes2.
      * apply NoDup_app. split_and!; [done| |done].
        intros c Hc1 Hc2%Hfresh2. set_solver.
      * intros c [Hc%Hfresh1|Hc%Hfresh2]%elem_of_app; set_solver.
      * intros c [Hc|Hc]%elem_of_app.
        -- destruct (Hsound1 c Hc) as (n & v & ? & ? & ? & ? & ?).
           exists u, d, ns, n, v.
           split_and!; [apply list_elem_of_here|done..].
        -- destruct (Hsound2 c Hc) as (u0 & d0 & ns0 & n & v & ? & ?).
           exists u0, d0, ns0, n, v.
           split; [by apply list_elem_of_further|done].
      * intros u0 d0 ns0 n v [[= -> ->]|Hin]%elem_of_cons Hns Hn Hv Hne Hkey.
        -- rewrite Hd in Hns. injection Hns as <-.
           specialize (Hcomplete1 n v Hn Hv Hne Hkey). set_solver.
        -- specialize (Hcomplete2 u0 d0 ns0 n v Hin Hns Hn Hv Hne Hkey).
           set_solver.
    + destruct (no_element (VInterfaces m)); [|done].
      intros Hedges. apply Hskip; [done|]. intros ns. by left.
    + destruct (no_element (VResults m)); [|done].
      intros Hedges. apply Hskip; [done|]. intros ns. by left.
    + intros Hedges. apply Hskip; [done|]. intros ns. by left.
Qed.

(** What [build_graph] returns: the nodes, then the edges. *)
Lemma build_graph_spec (devices : list (string * device_data)) calls :
  build_graph devices = Some calls →
  ∃ nodes edges,
    calls = nodes ++ edges
    ∧ add_nodes devices = Some nodes
    ∧ omap node_of nodes = devices.*1
    ∧ omap connection_of nodes = []
    ∧ omap node_of edges = []
    ∧ NoDup (omap connection_of edges)
    ∧ (∀ c, c ∈ edges →
         ∃ u d ns n v,
           (u, d) ∈ devices ∧ d !! "neighbors" = Some (VNeighbors ns)
           ∧ n ∈ ns ∧ get_ip n = Some v ∧ v ≠ "" ∧ v ∈ devices.*1
           ∧ c = add_edge u v (default "" (n !! "local_interface"))
                   (default "" (n !! "remote_interface")))
    ∧ (∀ u d ns n v,
         (u, d) ∈ devices → d !! "neighbors" = Some (VNeighbors ns) →
         n ∈ ns → get_ip n = Some v → v ≠ "" → v ∈ devices.*1 →
         PyStr.sorted_pair u v ∈ omap connection_of edges).
Proof.
  unfold build_graph.
  destruct (add_nodes devices) as [nodes|] eqn:Hnodes; [|done].
  destruct (device_edges devices.*1 devices [] ∅) as [edges|] eqn:Hedges;
    [|done].
  intros [= <-].
  destruct (add_nodes_spec devices nodes Hnodes) as (Hn & Hc & _).
  destruct (device_edges_spec _ _ _ _ _ Hedges)
    as (new & -> & Hnodes' & Hnodup & _ & Hsound & Hcomplete).
  exists nodes, new. simpl. split_and!; [done..|].
  intros u d ns n v Hin Hns Hn' Hv Hne Hkey.
  specialize (Hcomplete u d ns n v Hin Hns Hn' Hv Hne Hkey). set_solver.
Qed.

(** The calls of the first loop, one for one with the items. *)
Lemma add_nodes_Forall2 (items : list (string * device_data)) :
  ∀ nodes, add_nodes items = Some nodes →
    Forall2 (λ item c,
               ∃ t, _determine_device_type item.2 = Some t
                    ∧ c = add_node item.1
                            (default (VStr item.1) (item.2 !! "hostname"))
                            t item.2)
      items nodes.
Proof.
  induction items as [|[ip d] items IH]; intros nodes; simpl.
  - intros [= <-]. constructor.
  - destruct (_determine_device_type d) as [t|] eqn:Ht; [|done].
    destruct (add_nodes items) as [calls|]; [|done].
    intros [= <-]. constructor; [|by apply IH].
    exists t. split; [exact Ht|done].
Qed.

Lemma omap_nil_Forall {A B} (f : A → option B) (l : list A) :
  omap f l = [] → Forall (λ x, f x = None) l.
Proof.
  induction l as [|x l IH]; simpl; [constructor|].
  destruct (f x) eqn:Hx; [done|]. intros Hl. constructor; [done|by apply IH].
Qed.

(** X25: the calls of [build_graph] are first one [add_node] for each
    device, in the order of the items, then calls that are all [add_edge]:
    every node is added before any edge, and no edge adds a node. The node
    of a device has its address as name, its host name (its address when
    it has none) as label, what [_determine_device_type] returns as type,
    and the record as data. *)
Theorem graph_has_one_node_per_device
    (devices : list (string * device_data)) (calls : list graph_call) :
  build_graph devices = Some calls →
  ∃ nodes edges,
    calls = nodes ++ edges
    ∧ Forall2 (λ item c,
                 ∃ t, _determine_device_type item.2 = Some t
                      ∧ c = add_node item.1
                              (default (VStr item.1) (item.2 !! "hostname"))
                              t item.2)
        devices nodes
    ∧ Forall (λ c, ∃ u v li ri, c = add_edge u v li ri) edges.
Proof.
  intros Hgraph.
  destruct (build_graph_spec devices calls Hgraph)
    as (nodes & edges & -> & Hadd & _ & _ & Hn' & _).
  exists nodes, edges. split_and!; [done|by apply add_nodes_Forall2|].
  apply omap_nil_Forall in Hn'.
  eapply Forall_impl; [exact Hn'|].
  intros [n l t d|u v li ri]; [done|]. by exists u, v, li, ri.
Qed.

(** X26: an edge of the graph joins two devices of the store: it starts at a
    device that has a neighbor record with the address of the other end,
    and carries the interfaces of that record (the empty string for one
    the record does not have). *)
Theorem graph_edges_join_devices (devices : list (string * device_data))
    (calls : list graph_call) (u v local_intf remote_intf : string) :
  build_graph devices = Some calls →
  add_edge u v local_intf remote_intf ∈ calls →
  u ∈ devices.*1 ∧ v ∈ devices.*1 ∧ v ≠ ""
  ∧ ∃ d ns n,
      (u, d) ∈ devices ∧ d !! "neighbors" = Some (VNeighbors ns)
      ∧ n ∈ ns ∧ get_ip n = Some v
      ∧ local_intf = default "" (n !! "local_interface")
      ∧ remote_intf = default "" (n !! "remote_interface").
Proof.
  intros Hgraph Hin.
  destruct (build_graph_spec devices calls Hgraph)
    as (nodes & edges & -> & _ & _ & Hc & _ & _ & Hsound & _).
  apply elem_of_app in Hin as [Hin|Hin].
  - assert (PyStr.sorted_pair u v ∈ omap connection_of nodes) as Hp
      by (apply list_elem_of_omap; by eexists).
    rewrite Hc in Hp. by apply elem_of_nil in Hp.
  - destruct (Hsound _ Hin)
      as (u' & d & ns & n & v' & Hd & Hns & Hn & Hv & Hne & Hkey
          & [= -> -> -> ->]).
    split_and!; [|done|done|by exists d, ns, n].
    apply list_elem_of_fmap. by exists (u', d).
Qed.

Lemma NoDup_omap_lookup {A B} (f : A → option B) (l : list A) :
  NoDup (omap f l) →
  ∀ i j x y b, l !! i = Some x → l !! j = Some y → i ≠ j →
    f x = Some b → f y ≠ Some b.
Proof.
  induction l as [|a l IH]; intros Hnodup i j x y b Hi Hj Hij Hx Hy;
    [done|].
  assert (∀ k z, l !! k = Some z → f z = Some b → b ∈ omap f l) as Hin.
  { intros k z Hk Hz. apply list_elem_of_omap. exists z.
    split; [by eapply list_elem_of_lookup_2|done]. }
  simpl in Hnodup.
  assert (NoDup (omap f l)) as Hl
    by (destruct (f a); [by apply NoDup_cons in Hnodup as [_ ?]|done]).
  destruct i as [|i], j as [|j]; simpl in *; [done|..].
  - injection Hi as ->. rewrite Hx in Hnodup.
    apply NoDup_cons in Hnodup as [Hb _]. by eapply Hb, Hin.
  - injection Hj as ->. rewrite Hy in Hnodup.
    apply NoDup_cons in Hnodup as [Hb _]. by eapply Hb, Hin.
  - apply (IH Hl i j x y b); [done|done|lia|done|done].
Qed.

(** X27: no two edges of the graph join the same two devices, in the same
    or in the other direction: a link seen from both ends, or announced
    twice, is drawn once. *)
Theorem graph_has_no_parallel_edges (devices : list (string * device_data))
    (calls : list graph_call) (i j : nat)
    (u v li ri u' v' li' ri' : string) :
  build_graph devices = Some calls →
  calls !! i = Some (add_edge u v li ri) →
  calls !! j = Some (add_edge u' v' li' ri') →
  i ≠ j →
  ¬ ((u = u' ∧ v = v') ∨ (u = v' ∧ v = u')).
Proof.
  intros Hgraph Hi Hj Hij Hsame.
  destruct (build_graph_spec devices calls Hgraph)
    as (nodes & edges & -> & _ & _ & Hc & _ & Hnodup & _).
  assert (NoDup (omap connection_of (nodes ++ edges))) as Hnodup'
    by (by rewrite omap_app, Hc).
  apply (NoDup_omap_lookup _ _ Hnodup' i j _ _ (PyStr.sorted_pair u v)
           Hi Hj Hij); [done|].
  simpl. f_equal. destruct Hsame as [[-> ->]|[-> ->]]; [done|].
  apply sorted_pair_comm.
Qed.

(** X28: every neighbor record of a device whose address is not empty and
    is the address of a device of the store has an edge between the two,
    in one direction or the other. *)
Theorem graph_has_every_link_between_devices
    (devices : list (string * device_data)) (calls : list graph_call)
    (u : string) (d : device_data) (ns : list record) (n : record)
    (v : string) :
  build_graph devices = Some calls →
  (u, d) ∈ devices →
  d !! "neighbors" = Some (VNeighbors ns) →
  n ∈ ns → get_ip n = Some v → v ≠ "" → v ∈ devices.*1 →
  ∃ li ri, add_edge u v li ri ∈ calls ∨ add_edge v u li ri ∈ calls.
Proof.
  intros Hgraph Hd Hns Hn Hv Hne Hkey.
  destruct (build_graph_spec devices calls Hgraph)
    as (nodes & edges & -> & _ & _ & _ & _ & _ & _ & Hcomplete).
  specialize (Hcomplete u d ns n v Hd Hns Hn Hv Hne Hkey).
  apply list_elem_of_omap in Hcomplete as ([|a b li ri] & Hin & Hc);
    [done|].
  injection Hc as Hc. exists li, ri.
  destruct (sorted_pair_inv _ _ _ _ Hc) as [[-> ->]|[-> ->]];
    [left|right]; apply elem_of_app; by right.
Qed.

Lemma add_nodes_is_Some (items : list (string * device_data)) :
  (∀ ip d, (ip, d) ∈ items → is_Some (_determine_device_type d)) →
  is_Some (add_nodes items).
Proof.
  induction items as [|[ip d] items IH]; intros Htype; simpl; [done|].
  destruct (Htype ip d) as [t ->]; [apply list_elem_of_here|].
  destruct IH as [calls ->]; [|done].
  intros ip' d' Hin. apply (Htype ip' d'). by apply list_elem_of_further.
Qed.

Lemma device_edges_is_Some keys (items : list (string * device_data)) :
  ∀ calls added,
    (∀ ip d, (ip, d) ∈ items →
       d !! "neighbors" = None
       ∨ ∃ ns, d !! "neighbors" = Some (VNeighbors ns)) →
    is_Some (device_edges keys items calls added).
Proof.
  induction items as [|[ip d] items IH]; intros calls added Hns; simpl;
    [done|].
  assert (∀ ip d, (ip, d) ∈ items →
            d !! "neighbors" = None
            ∨ ∃ ns, d !! "neighbors" = Some (VNeighbors ns)) as Hns'
    by (intros ip' d' Hin; apply (Hns ip' d'); by apply list_elem_of_further).
  destruct (Hns ip d) as [->|[ns ->]]; [apply list_elem_of_here| |].
  - by apply IH.
  - destruct (neighbor_edges keys ip ns calls added). by apply IH.
Qed.

Section GraphOfARun.
Context `{PyIpaddress} `{PyRe} `{Netmiko}.

Lemma discover_single_device_neighbors_shape params w :
  (discover_single_device params w).1 !! "neighbors" = None
  ∨ ∃ ns, (discover_single_device params w).1 !! "neighbors"
            = Some (VNeighbors ns).
Proof.
  destruct (discover_single_device_record params w)
    as (ts & w1 & _ & [(e & w2 & _ & ->)
                      |(conn & w2 & v & ns & results & _ & _ & _ & ->)]).
  - left. by rewrite lookup_insert_ne, lookup_singleton_ne.
  - right. exists ns. rewrite !lookup_insert_ne by done.
    apply lookup_insert_eq.
Qed.

Lemma run_stored_neighbors seeds max ign w0 st w :
  run_state seeds max ign w0 st w →
  ∀ ip data, discovered_devices st !! ip = Some data →
    data !! "neighbors" = None
    ∨ ∃ ns, data !! "neighbors" = Some (VNeighbors ns).
Proof.
  apply (run_state_invariant
    (λ st, ∀ ip data, discovered_devices st !! ip = Some data →
       data !! "neighbors" = None
       ∨ ∃ ns, data !! "neighbors" = Some (VNeighbors ns))).
  - intros ip data. simpl. by rewrite lookup_empty.
  - intros st0 w1 st' w' Hst _ Hturn. turn_cases Hturn; [done..|].
    intros ip' data'. rewrite lookup_insert. case_decide; [|apply Hst].
    intros [= <-].
    pose proof (discover_single_device_neighbors_shape device_params w1)
      as Hshape.
    match goal with Hd : discover_single_device _ _ = _ |- _ =>
      by rewrite Hd in Hshape end.
Qed.

(** X29: [build_graph] raises no exception on the store of a run, as [main]
    calls it: every record has text, or nothing, as hardware and host
    name, and a list of records, or nothing, as neighbors. *)
Theorem graph_of_a_run_is_built (seeds : list record) (max : Z)
    (ign : option (list string)) (w0 : world) (st : frontier) (w : world) :
  run_state seeds max ign w0 st w →
  is_Some (build_graph (map_to_list (discovered_devices st))).
Proof.
  intros Hrun. unfold build_graph.
  destruct (add_nodes_is_Some (map_to_list (discovered_devices st)))
    as [nodes ->].
  { intros ip d Hd%elem_of_map_to_list.
    destruct (run_stored_entries _ _ _ _ _ _ Hrun ip d Hd)
      as (_ & _ & _ & Hstr).
    destruct (_determine_device_type_strings d) as (t & -> & _); [|done].
    intros k Hk. apply Hstr. set_solver. }
  destruct (device_edges_is_Some (map_to_list (discovered_devices st)).*1
              (map_to_list (discovered_devices st)) [] ∅) as [edges ->];
    [|done].
  intros ip d Hd%elem_of_map_to_list.
  by apply (run_stored_neighbors _ _ _ _ _ _ Hrun ip d).
Qed.

End GraphOfARun.

(** *** The store of the small network *)

(** The graph of the store of the run. *)
Lemma lab_graph :
  build_graph Lab.devices = Some (default [] (build_graph Lab.devices)).
Proof. apply is_Some_default. vm_decide. Qed.

(** The record of 10.0.0.1 is the first item of the store. *)
Lemma lab_first_item :
  ("10.0.0.1", default ∅ (Lab.store !! "10.0.0.1")) ∈ Lab.devices.
Proof. apply list_elem_of_here. Qed.

Lemma run_store_has_only_unknown_types_witness :
  _get_device_types (discovered_devices Lab.first_turn.1)
  = Some (if decide (discovered_devices Lab.first_turn.1 = ∅) then ∅
          else {["unknown"]}).
Proof.
  apply (@run_store_has_only_unknown_types IPv4.ipaddress Backtrack.re
           Example.lab Lab.seeds 5 None 0 _ _ lab_first_turn_run).
Defined.

(** The device at 10.0.0.1, a WS-C3750-24TS. *)
Lemma stored_device_has_a_type_witness :
  ∃ data,
    discovered_devices Lab.first_turn.1 !! "10.0.0.1" = Some data
    ∧ ∃ t, _determine_device_type data = Some t
           ∧ t ∈ ["switch"; "router"; "firewall"].
Proof.
  eexists. split; [apply lab_first_turn_stored|].
  apply (@stored_device_has_a_type IPv4.ipaddress Backtrack.re
           Example.lab Lab.seeds 5 None 0 _ _ "10.0.0.1" _
           lab_first_turn_run lab_first_turn_stored).
Defined.

(** No device answers for 10.0.0.3. *)
Lemma unreachable_device_is_a_switch_witness :
  _determine_device_type
    (@discover_single_device Backtrack.re Example.lab
       (Example.seed "10.0.0.3") 0).1
  = Some "switch".
Proof.
  apply (@unreachable_device_is_a_switch Backtrack.re Example.lab
           (Example.seed "10.0.0.3") 0 "t0" 1 "timed out" 2);
    vm_compute; reflexivity.
Defined.

(** The graph of the three devices: three nodes, then two edges. *)
Lemma graph_has_one_node_per_device_witness :
  ∃ calls,
    build_graph Lab.devices = Some calls
    ∧ List.length calls = 5
    ∧ ∃ nodes edges,
        calls = nodes ++ edges
        ∧ Forall2 (λ item c,
                     ∃ t, _determine_device_type item.2 = Some t
                          ∧ c = add_node item.1
                                  (default (VStr item.1)
                                     (item.2 !! "hostname"))
                                  t item.2)
            Lab.devices nodes
        ∧ Forall (λ c, ∃ u v li ri, c = add_edge u v li ri) edges.
Proof.
  eexists. split; [apply lab_graph|]. split; [vm_compute; reflexivity|].
  apply (graph_has_one_node_per_device Lab.devices _ lab_graph).
Defined.

(** The edge from 10.0.0.1 to 10.0.0.3, which LLDP announced. *)
Lemma graph_edges_join_devices_witness :
  "10.0.0.1" ∈ Lab.devices.*1 ∧ "10.0.0.3" ∈ Lab.devices.*1
  ∧ "10.0.0.3" ≠ ""
  ∧ ∃ d ns n,
      ("10.0.0.1", d) ∈ Lab.devices
      ∧ d !! "neighbors" = Some (VNeighbors ns)
      ∧ n ∈ ns ∧ get_ip n = Some "10.0.0.3"
      ∧ "Gi0/4" = default "" (n !! "local_interface")
      ∧ "Gi1/0/4" = default "" (n !! "remote_interface").
Proof.
  apply (graph_edges_join_devices Lab.devices _ "10.0.0.1" "10.0.0.3"
           "Gi0/4" "Gi1/0/4" lab_graph).
  apply (list_elem_of_lookup_2 _ 4). vm_compute; reflexivity.
Defined.

(** The two edges of the graph, both from 10.0.0.1. *)
Lemma graph_has_no_parallel_edges_witness :
  ¬ (("10.0.0.1" = "10.0.0.1" ∧ "10.0.0.2" = "10.0.0.3")
     ∨ ("10.0.0.1" = "10.0.0.3" ∧ "10.0.0.2" = "10.0.0.1")).
Proof.
  apply (graph_has_no_parallel_edges Lab.devices _ 3 4
           "10.0.0.1" "10.0.0.2" "GigabitEthernet0/1" "GigabitEthernet1/0/1"
           "10.0.0.1" "10.0.0.3" "Gi0/4" "Gi1/0/4" lab_graph).
  - vm_compute; reflexivity.
  - vm_compute; reflexivity.
  - lia.
Defined.

(** The second of the two CDP records of 10.0.0.1 for 10.0.0.2. *)
Lemma graph_has_every_link_between_devices_witness :
  ∃ calls,
    build_graph Lab.devices = Some calls
    ∧ ∃ li ri, add_edge "10.0.0.1" "10.0.0.2" li ri ∈ calls
               ∨ add_edge "10.0.0.2" "10.0.0.1" li ri ∈ calls.
Proof.
  eexists. split; [apply lab_graph|].
  apply (graph_has_every_link_between_devices Lab.devices _ "10.0.0.1"
           (default ∅ (Lab.store !! "10.0.0.1"))
           (neighbors_of (default ∅ (Lab.store !! "10.0.0.1")))
           (default ∅
              (neighbors_of (default ∅ (Lab.store !! "10.0.0.1")) !! 1))
           "10.0.0.2" lab_graph lab_first_item).
  - apply (neighbors_of_lookup _ 2). vm_compute; reflexivity.
  - apply (list_elem_of_lookup_2 _ 1), is_Some_default. vm_decide.
  - vm_compute; reflexivity.
  - done.
  - apply list_elem_of_further, list_elem_of_here.
Defined.

Lemma graph_of_a_run_is_built_witness :
  is_Some (build_graph (map_to_list (discovered_devices Lab.first_turn.1))).
Proof.
  apply (@graph_of_a_run_is_built IPv4.ipaddress Backtrack.re Example.lab
           Lab.seeds 5 None 0 _ _ lab_first_turn_run).
Defined.
